(** * Reconciliation of polled server data: a model of the client and server

    The development follows the three programs of the repository:
    - [DeepCompare]: [public/deepCompare.js], the structural equality
      [deepEqual];
    - [App]: the client script, whose [fetchPokemons] merges each polled
      snapshot into [localPokemons] and into the page;
    - [Server]: the route [POST /api/pokemons/:id/power].

    JavaScript values are modelled as trees.  Every object and array carries
    the reference it lives at, because the source compares objects by
    reference ([===], [indexOf]).  Numbers are the integers: the identifiers
    and power levels the programs exchange are integers, on which [===], [+]
    and [<] are exact, and no [NaN] travels through JSON. *)

From Stdlib Require Import ZArith List Bool Lia.
From stdpp Require Import base list strings pretty.

Local Open Scope string_scope.
Local Open Scope list_scope.

(* ===================================================================== *)
(** ** JavaScript values *)
(* ===================================================================== *)

Module Js.

Definition ref := nat.
Bind Scope nat_scope with ref.

Unset Elimination Schemes.
Inductive value : Type :=
| VUndefined
| VNull
| VBool (b : bool)
| VNum (n : Z)
| VStr (s : string)
| VArr (r : ref) (elems : list value)
| VObj (r : ref) (props : list (string * value)).
Set Elimination Schemes.

(** Induction over values, with the hypothesis available on every element
    of an array and on every property value of an object. *)
Definition value_ind (P : value -> Prop)
    (Hundef : P VUndefined) (Hnull : P VNull)
    (Hbool : forall b, P (VBool b)) (Hnum : forall n, P (VNum n))
    (Hstr : forall s, P (VStr s))
    (Harr : forall r elems, Forall P elems -> P (VArr r elems))
    (Hobj : forall r props, Forall (fun kv => P (snd kv)) props -> P (VObj r props)) :
  forall v, P v :=
  fix go (v : value) : P v :=
    match v with
    | VUndefined => Hundef
    | VNull => Hnull
    | VBool b => Hbool b
    | VNum n => Hnum n
    | VStr s => Hstr s
    | VArr r elems =>
        Harr r elems
          ((fix all (l : list value) : Forall P l :=
              match l with
              | [] => @List.Forall_nil _ P
              | x :: l' => @List.Forall_cons _ P x l' (go x) (all l')
              end) elems)
    | VObj r props =>
        Hobj r props
          ((fix all (l : list (string * value)) : Forall (fun kv => P (snd kv)) l :=
              match l with
              | [] => @List.Forall_nil _ _
              | kv :: l' => @List.Forall_cons _ _ kv l' (go (snd kv)) (all l')
              end) props)
    end.

(** [typeof v === 'object']: true of [null], of arrays and of objects. *)
Definition typeof_object (v : value) : bool :=
  match v with
  | VNull | VArr _ _ | VObj _ _ => true
  | _ => false
  end.

Definition is_null (v : value) : bool :=
  match v with VNull => true | _ => false end.

(** A composite is what passes the guard of [deepEqual]: [typeof] is
    ['object'] and the value is not [null]. *)
Definition is_composite (v : value) : bool :=
  typeof_object v && negb (is_null v).

(** [a === b]: primitives of one type by value, objects and arrays by
    reference, nothing across types. *)
Definition strict_eq (a b : value) : bool :=
  match a, b with
  | VUndefined, VUndefined => true
  | VNull, VNull => true
  | VBool x, VBool y => Bool.eqb x y
  | VNum x, VNum y => Z.eqb x y
  | VStr x, VStr y => String.eqb x y
  | VArr r1 _, VArr r2 _ => Nat.eqb r1 r2
  | VObj r1 _, VObj r2 _ => Nat.eqb r1 r2
  | _, _ => false
  end.

(** The key under which an array holds its [i]-th element: ["0"], ["1"], ... *)
Definition index_key (i : nat) : string := pretty i.

(** Own enumerable properties in enumeration order.  Only composites are
    ever enumerated by the programs modelled here. *)
Definition own_props (v : value) : list (string * value) :=
  match v with
  | VObj _ props => props
  | VArr _ elems => imap (fun i x => (index_key i, x)) elems
  | _ => []
  end.

(** [Object.keys(v)] *)
Definition keys (v : value) : list string := map fst (own_props v).

Fixpoint assoc (key : string) (props : list (string * value)) : option value :=
  match props with
  | [] => None
  | (k, x) :: rest => if String.eqb k key then Some x else assoc key rest
  end.

(** [v[key]] for an own enumerable property, [undefined] when there is
    none.  The programs read a property either after [keys2.includes(key)]
    or, for [id], on a parsed record, so that inherited properties and the
    [length] of arrays never come into play. *)
Definition get (v : value) (key : string) : value :=
  match assoc key (own_props v) with
  | Some x => x
  | None => VUndefined
  end.

(** [arr.includes(key)] on an array of strings. *)
Definition includes (key : string) (arr : list string) : bool :=
  existsb (String.eqb key) arr.

(** A JavaScript object holds one value per key. *)
Definition distinct_keys (v : value) : Prop := NoDup (keys v).

(** The same at every depth: what [JSON.parse] can return. *)
#[warnings="-register-all"]
Inductive well_formed : value -> Prop :=
| wf_undefined : well_formed VUndefined
| wf_null : well_formed VNull
| wf_bool b : well_formed (VBool b)
| wf_num n : well_formed (VNum n)
| wf_str s : well_formed (VStr s)
| wf_arr r elems : Forall well_formed elems -> well_formed (VArr r elems)
| wf_obj r props :
    NoDup (map fst props) -> Forall (fun kv => well_formed (snd kv)) props ->
    well_formed (VObj r props).

(** The content of a value: the tree with every reference forgotten. *)
Fixpoint erase (v : value) : value :=
  match v with
  | VArr _ elems => VArr 0 (map erase elems)
  | VObj _ props => VObj 0 (map (fun kv => (fst kv, erase (snd kv))) props)
  | _ => v
  end.

(** The references of the objects and arrays a value is made of. *)
Fixpoint refs (v : value) : list ref :=
  match v with
  | VArr r elems => r :: flat_map refs elems
  | VObj r props => r :: flat_map (fun kv => refs (snd kv)) props
  | _ => []
  end.

(** Two values that have no object in common. *)
Definition apart (a b : value) : Prop :=
  forall r, r ∈ refs a -> r ∉ refs b.

(** Two entries with one key and the same content. *)
Definition entry_alike (e1 e2 : string * value) : Prop :=
  fst e1 = fst e2 /\ erase (snd e1) = erase (snd e2).

End Js.

(* ===================================================================== *)
(** ** public/deepCompare.js *)
(* ===================================================================== *)

Module DeepCompare.
Import Js.

(** The body of the [for (let key of keys1)] loop for one key, given the
    value [v1 = obj1[key]]: [false] stands for the early [return false]. *)
Definition check_key (deepEqual : value -> value -> bool)
    (obj2 : value) (key : string) (v1 : value) : bool :=
  includes key (keys obj2) &&
  (let v2 := get obj2 key in
   if typeof_object v1 && typeof_object v2
   then deepEqual v1 v2
   else strict_eq v1 v2).

(** [for (let key of keys1)] over the entries of an object: each key comes
    with the value [obj1[key]] stored under it. *)
Definition each_entry (body : string -> value -> bool) :=
  fix each (entries : list (string * value)) : bool :=
    match entries with
    | [] => true
    | (key, v1) :: rest => body key v1 && each rest
    end.

(** The same loop over an array, whose keys are its indices from [i] on. *)
Definition each_elem (body : string -> value -> bool) :=
  fix each (i : nat) (elems : list value) : bool :=
    match elems with
    | [] => true
    | v1 :: rest => body (index_key i) v1 && each (S i) rest
    end.

(** [deepEqual(obj1, obj2)], line by line: the shortcut on [===], the test
    for two non-null objects, the key counts, the loop over [keys1]. *)
Fixpoint deepEqual (obj1 obj2 : value) {struct obj1} : bool :=
  if strict_eq obj1 obj2 then true
  else if negb (typeof_object obj1) || is_null obj1
          || negb (typeof_object obj2) || is_null obj2 then false
  else if negb (Nat.eqb (length (keys obj1)) (length (keys obj2))) then false
  else
    match obj1 with
    | VObj _ props1 => each_entry (check_key deepEqual obj2) props1
    | VArr _ elems1 => each_elem (check_key deepEqual obj2) 0 elems1
    | _ => true
    end.

(** What the loop does with the two values under one key: recursion when
    both have [typeof] ['object'], [!==] otherwise. *)
Definition value_equal (v1 v2 : value) : bool :=
  if typeof_object v1 && typeof_object v2 then deepEqual v1 v2 else strict_eq v1 v2.

(** The loop of [deepEqual] written over the keys, reading [obj1[key]] as
    the source does. *)
Definition keys_agree (obj1 obj2 : value) : bool :=
  forallb (fun key => includes key (keys obj2) &&
                      value_equal (get obj1 key) (get obj2 key))
          (keys obj1).

(** [{a:1, b:{c:2}}] and a copy of it with the keys in the other order. *)
Definition nested : value :=
  VObj 1 [("a", VNum 1); ("b", VObj 2 [("c", VNum 2)])].
Definition nested_copy : value :=
  VObj 3 [("b", VObj 4 [("c", VNum 2)]); ("a", VNum 1)].

End DeepCompare.

(* ===================================================================== *)
(** ** The client: [fetchPokemons] and its held snapshot *)
(* ===================================================================== *)

Module App.
Import Js DeepCompare.

(** A record of a snapshot is an object: its reference and its properties.
    [GET /api/pokemons] answers with an array of them. *)
Record record := { rref : ref; rprops : list (string * value) }.

Definition to_value (p : record) : value := VObj (rref p) (rprops p).

(** [p.id] *)
Definition id_of (p : record) : value := get (to_value p) "id".

(** [p.id === q.id] *)
Definition same_id (p q : record) : bool := strict_eq (id_of p) (id_of q).

(** Modelled from the spec: the script calls [isEqual], which none of the
    source files binds (its import of [deepCompare] is commented out); the
    Equality Checker of the specification is [deepEqual], and that is what
    [isEqual] stands for here. *)
Definition isEqual (p q : record) : bool := deepEqual (to_value p) (to_value q).

(** What the script does to the page.  [Clear] empties the container
    ([innerHTML = '']); [Create p] builds the card of [p] and appends it
    ([createPokemonCard], [appendChild]); [Update p] is [updatePokemonUI(p)];
    [Delete p] looks up the card of [p] and removes it. *)
Inductive ui_event :=
| Clear
| Create (p : record)
| Update (p : record)
| Delete (p : record).

(** [renderPokemons(pokemons)] *)
Definition renderPokemons (pokemons : list record) : list ui_event :=
  Clear :: map Create pokemons.

(** [arr.indexOf(x)]: the first position holding the object [x] itself;
    [None] is the source's [-1]. *)
Fixpoint indexOf (x : record) (arr : list record) : option nat :=
  match arr with
  | [] => None
  | y :: rest =>
      if strict_eq (to_value y) (to_value x) then Some 0
      else option_map S (indexOf x rest)
  end.

(** [arr[i] = x] with [i] the result of [indexOf].  At [-1] the assignment
    sets a property named ["-1"] and leaves every element as it is. *)
Definition assign_at (i : option nat) (x : record) (arr : list record) : list record :=
  match i with
  | Some n => <[n := x]> arr
  | None => arr
  end.

(** The state the two loops work on: [localPokemons] and the page events
    issued so far. *)
Definition loop_state : Type := list record * list ui_event.

(** The callback of [data.forEach]. *)
Definition onServerPokemon (st : loop_state) (serverPokemon : record) : loop_state :=
  let '(localPokemons, ui) := st in
  match List.find (fun p => same_id p serverPokemon) localPokemons with
  | Some localPokemon =>
      if negb (isEqual localPokemon serverPokemon)
      then (assign_at (indexOf localPokemon localPokemons) serverPokemon localPokemons,
            ui ++ [Update serverPokemon])
      else (localPokemons, ui)
  | None => (localPokemons ++ [serverPokemon], ui ++ [Create serverPokemon])
  end.

(** The callback of [localPokemons.forEach]; [filter] builds a new array
    and rebinds the variable, the array being iterated stays as it was. *)
Definition onLocalPokemon (data : list record) (st : loop_state)
    (localPokemon : record) : loop_state :=
  let '(localPokemons, ui) := st in
  match List.find (fun p => same_id p localPokemon) data with
  | Some _ => (localPokemons, ui)
  | None =>
      (List.filter (fun p => negb (same_id p localPokemon)) localPokemons,
       ui ++ [Delete localPokemon])
  end.

(** The body of [fetchPokemons] once [data] is parsed: the new value of
    [localPokemons] and the page events, in order. *)
Definition reconcile (localPokemons data : list record) : loop_state :=
  if Nat.eqb (length localPokemons) 0
  then (data, renderPokemons data)
  else
    let merged := fold_left onServerPokemon data (localPokemons, []) in
    fold_left (onLocalPokemon data) (fst merged) merged.

(** What [await fetch(..)] and [await response.json()] can come to. *)
Inductive json_result :=
| JsonRejected
| JsonArray (data : list record).

Inductive fetch_result :=
| FetchRejected
| FetchResponse (status : Z) (body : json_result).

(** [response.ok] *)
Definition ok (status : Z) : bool := (200 <=? status)%Z && (status <=? 299)%Z.

(** The errors that reach the [catch] of [fetchPokemons]. *)
Inductive error :=
| NetworkError
| ServerError (status : Z)
| ParseError.

Record state := {
  localPokemons : list record;
  page : list ui_event;
  console : list error
}.

Definition console_error (e : error) (s : state) : state :=
  {| localPokemons := localPokemons s; page := page s; console := console s ++ [e] |}.

(** One call of [fetchPokemons], given what the network answered. *)
Definition fetchPokemons (answer : fetch_result) (s : state) : state :=
  match answer with
  | FetchRejected => console_error NetworkError s
  | FetchResponse status body =>
      if negb (ok status) then console_error (ServerError status) s
      else
        match body with
        | JsonRejected => console_error ParseError s
        | JsonArray data =>
            let '(locals, events) := reconcile (localPokemons s) data in
            {| localPokemons := locals; page := page s ++ events; console := console s |}
        end
  end.

(** [setInterval(fetchPokemons, 5000)]: one call per tick.  A call reads
    and writes [localPokemons] only after its last [await] and in one go, so
    the calls act one after the other, in the order of [answers]. *)
Definition poll (answers : list fetch_result) (s : state) : state :=
  fold_left (fun s answer => fetchPokemons answer s) answers s.

(** *** Vocabulary of the properties *)

(** [data.find(p => p.id === q.id)] finds something. *)
Definition known_in (data : list record) (q : record) : bool :=
  existsb (fun p => same_id p q) data.

(** A reference denotes one object: two records at the same reference are
    the same record. *)
Definition coherent (l : list record) : Prop :=
  forall p q, p ∈ l -> q ∈ l -> rref p = rref q -> p = q.

(** At most one record per id. *)
Fixpoint unique_ids (l : list record) : bool :=
  match l with
  | [] => true
  | p :: rest => negb (known_in rest p) && unique_ids rest
  end.

(** The events that stand for an operation on a record: all but [Clear]. *)
Definition is_operation (e : ui_event) : bool :=
  match e with Clear => false | _ => true end.

Definition operations (events : list ui_event) : list ui_event :=
  List.filter is_operation events.

(** [p] sits at position [i] of [l] and is the first record there with the
    id of [f]: it is what [l.find(q => q.id === f.id)] returns. *)
Definition first_with_id (l : list record) (f : record) (i : nat) (p : record) : Prop :=
  l !! i = Some p /\ same_id p f = true /\
  forall j q, j < i -> l !! j = Some q -> same_id q f = false.

(** The three ways a step can go. *)
Inductive step_case (l : list record) (ui : list ui_event) (f : record) :
    loop_state -> Prop :=
| case_update i p :
    first_with_id l f i p -> isEqual p f = false ->
    step_case l ui f (<[i := f]> l, ui ++ [Update f])
| case_keep p :
    List.find (fun q => same_id q f) l = Some p -> isEqual p f = true ->
    step_case l ui f (l, ui)
| case_create :
    List.find (fun q => same_id q f) l = None ->
    step_case l ui f (l ++ [f], ui ++ [Create f]).

(** Every fetched record finds an equal record under its id. *)
Definition settled (l data : list record) : Prop :=
  forall f, f ∈ data ->
    exists q, List.find (fun q => same_id q f) l = Some q /\ isEqual q f = true.

Definition is_upsert (e : ui_event) : bool :=
  match e with Create _ | Update _ => true | _ => false end.

(** What the first loop issues for one fetched record, judged against the
    snapshot [l]. *)
Definition event_for (l : list record) (f : record) : list ui_event :=
  match List.find (fun q => same_id q f) l with
  | Some p => if isEqual p f then [] else [Update f]
  | None => [Create f]
  end.

(** The records of the worked examples: [{id: n, powerLevel: level}] held
    at the reference [r]. *)
Definition entity (r : ref) (n level : Z) : record :=
  {| rref := r; rprops := [("id", VNum n); ("powerLevel", VNum level)] |}.

(** [p] and [f] carry the same id and [isEqual] holds of them. *)
Definition matches (p f : record) : Prop :=
  same_id p f = true /\ isEqual p f = true.

(** Two records with the same content: the same keys in the same order
    and the same values, whichever objects they are. *)
Definition equal_content (p f : record) : Prop :=
  erase (to_value p) = erase (to_value f).

(** [P] and [F] are equal in content, whatever the order. *)
Definition same_content (P F : list record) : Prop :=
  exists P', P' ≡ₚ P /\ Forall2 equal_content P' F.

(** The records of [l] are made of objects that are all distinct, as those
    of freshly parsed snapshots are. *)
Definition all_distinct (l : list record) : Prop :=
  NoDup (flat_map (fun p => refs (to_value p)) l).

(** A record as [JSON.parse] delivers an entity: one value per key at
    every depth, and a primitive under [id]. *)
Definition parsed_entity (p : record) : Prop :=
  well_formed (to_value p) /\ is_composite (id_of p) = false.

(** A fetch that failed: the request was rejected, the status is outside
    200-299, or the body did not parse. *)
Definition failed (answer : fetch_result) : bool :=
  match answer with
  | FetchRejected => true
  | FetchResponse status body =>
      negb (ok status) || match body with JsonRejected => true | JsonArray _ => false end
  end.

(** The snapshot an answer carries, if it carries one. *)
Definition fetched (answer : fetch_result) : list record :=
  match answer with
  | FetchResponse _ (JsonArray data) => data
  | _ => []
  end.

(** Two records with the id 1 and different power levels, and a second
    copy of them as a later fetch delivers it. *)
Definition twins : list record := [entity 1 1 10; entity 2 1 11].
Definition twins_again : list record := [entity 3 1 10; entity 4 1 11].

End App.

(* ===================================================================== *)
(** ** The server: [POST /api/pokemons/:id/power] *)
(* ===================================================================== *)

Module Server.

(** The objects of the in-memory store, as the server builds them.  Power
    levels and changes are numbers that hold integers. *)
Record pokemon := {
  id : Z;
  name : string;
  image : string;
  powerLevel : Z
}.

(** The number nearest to the integer [z], a tie going to the even
    mantissa: what an arithmetic operation of JavaScript returns when its
    exact result is [z].  A number has 53 bits of mantissa, so every
    integer up to [2^53] in magnitude is a number, and above that the
    numbers are [2^(e-52)] apart, [e] being the position of the leading
    bit of [z].  (Near [2^1024] and beyond the result is [Infinity], which
    is not modelled; the properties about a sum stay far below.) *)
Definition round_double (z : Z) : Z :=
  let m := Z.abs z in
  let ulp := (2 ^ Z.max 0 (Z.log2 m - 52))%Z in
  let q := (m / ulp)%Z in
  let r := (m mod ulp)%Z in
  let q' := if (2 * r <? ulp)%Z then q
            else if (ulp <? 2 * r)%Z then (q + 1)%Z
            else if Z.even q then q else (q + 1)%Z in
  (Z.sgn z * (q' * ulp))%Z.

(** [a + b] on two numbers that hold integers. *)
Definition js_add (a b : Z) : Z := round_double (a + b).

(** The JSON bodies of the route. *)
Inductive body :=
| Changed (success : bool) (pokemon_ : pokemon)
| NotFound (success : bool) (message : string).

Record response := { status : Z; json : body }.

(** [p.id === pokemonId], where [pokemonId] is [parseInt(req.params.id)]:
    [None] stands for [NaN], which equals no id. *)
Definition id_is (pokemonId : option Z) (p : pokemon) : bool :=
  match pokemonId with
  | Some n => Z.eqb (id p) n
  | None => false
  end.

(** [pokemon.powerLevel += change; if (pokemon.powerLevel < 0)
    pokemon.powerLevel = 0] on the object found. *)
Definition change_power (change : Z) (p : pokemon) : pokemon :=
  let raised := js_add (powerLevel p) change in
  {| id := id p; name := name p; image := image p;
     powerLevel := if (raised <? 0)%Z then 0%Z else raised |}.

(** The store after the object that [find] returns was mutated: it is the
    first one with the id. *)
Fixpoint mutate_found (pokemonId : option Z) (change : Z) (pokemons : list pokemon)
    : list pokemon :=
  match pokemons with
  | [] => []
  | p :: rest =>
      if id_is pokemonId p then change_power change p :: rest
      else p :: mutate_found pokemonId change rest
  end.

(** The handler: the store afterwards and the response sent.  A response
    whose status is not set goes out with 200. *)
Definition post_power (pokemons : list pokemon) (pokemonId : option Z) (change : Z)
    : list pokemon * response :=
  match List.find (id_is pokemonId) pokemons with
  | Some p =>
      (mutate_found pokemonId change pokemons,
       {| status := 200; json := Changed true (change_power change p) |})
  | None =>
      (pokemons, {| status := 404; json := NotFound false "Pokémon not found" |})
  end.

(** Two entities of the store. *)
Definition bulbasaur : pokemon :=
  {| id := 1; name := "bulbasaur"; image := "1.png"; powerLevel := 2 |}.
Definition pikachu : pokemon :=
  {| id := 25; name := "pikachu"; image := "25.png"; powerLevel := 3 |}.

End Server.

(* ===================================================================== *)
(** ** The client: [changePower] *)
(* ===================================================================== *)

Module ChangePower.
Import Js DeepCompare App.

(** [arr.findIndex(h)]; [None] is the source's [-1]. *)
Fixpoint findIndex (h : record -> bool) (arr : list record) : option nat :=
  match arr with
  | [] => None
  | y :: rest => if h y then Some 0 else option_map S (findIndex h rest)
  end.

(** The parsed body of the answer to the POST: [result.success],
    [result.pokemon] and [result.message], the last two possibly absent. *)
Record power_result := {
  success : bool;
  pokemon : option record;
  message : option string
}.

Inductive power_body :=
| BodyRejected
| Body (result : power_result).

Inductive power_answer :=
| RequestRejected
| Answer (status : Z) (body : power_body).

(** The errors that reach the [catch] of [changePower]; the last one is the
    [TypeError] of [updatePokemonUI] reading the id of an absent pokemon. *)
Inductive update_error :=
| UpdateNetworkError
| UpdateServerError (status : Z)
| UpdateParseError
| UpdateTypeError.

(** The state [changePower] works on: that of [fetchPokemons], the lines it
    logs itself under ['Error updating power level:'], and the texts it
    puts up with [alert]. *)
Record browser := {
  app : state;
  update_errors : list update_error;
  alerts : list string
}.

Definition failure_text : string := "Failed to update power level. Please try again.".

(** The [catch] block. *)
Definition report_failure (e : update_error) (b : browser) : browser :=
  {| app := app b;
     update_errors := update_errors b ++ [e];
     alerts := alerts b ++ [failure_text] |}.

(** [alert(result.message)]; an absent message is shown as [undefined]. *)
Definition alert_message (m : option string) (b : browser) : browser :=
  {| app := app b;
     update_errors := update_errors b;
     alerts := alerts b ++ [match m with Some text => text | None => "undefined" end] |}.

(** The update of [localPokemons] once the server confirmed: the record at
    the index [findIndex] returns is replaced unless [isEqual] holds. *)
Definition store_confirmed (updated : record) (locals : list record) : list record :=
  match findIndex (fun p => same_id p updated) locals with
  | Some index =>
      match locals !! index with
      | Some held =>
          if negb (isEqual held updated) then <[index := updated]> locals else locals
      | None => locals
      end
  | None => locals
  end.

(** One call of [changePower], given what the network answered.  As in
    [fetchPokemons] the state is touched only after the last [await]. *)
Definition changePower (answer : power_answer) (b : browser) : browser :=
  match answer with
  | RequestRejected => report_failure UpdateNetworkError b
  | Answer status body =>
      if negb (ok status) then report_failure (UpdateServerError status) b
      else
        match body with
        | BodyRejected => report_failure UpdateParseError b
        | Body result =>
            if success result then
              match pokemon result with
              | None => report_failure UpdateTypeError b
              | Some updated =>
                  {| app :=
                       {| localPokemons := store_confirmed updated (localPokemons (app b));
                          page := page (app b) ++ [Update updated];
                          console := console (app b) |};
                     update_errors := update_errors b;
                     alerts := alerts b |}
              end
            else alert_message (message result) b
        end
  end.

(** The pokemon a call takes as confirmed by the server, if any: the
    status is 200-299, the body parsed, [success] holds and the pokemon is
    there. *)
Definition confirmed (answer : power_answer) : option record :=
  match answer with
  | Answer status (Body result) =>
      if ok status && success result then pokemon result else None
  | _ => None
  end.

End ChangePower.

(* ===================================================================== *)
(** ** The merge that [fetchPokemons] computes, written out *)
(* ===================================================================== *)

Module Merge.
Import Js DeepCompare App.

(** What becomes of a held record, given the fetched data: the fetched
    record of its id when the two differ, the held record otherwise. *)
Definition refresh (data : list record) (p : record) : record :=
  match List.find (fun f => same_id f p) data with
  | Some f => if isEqual p f then p else f
  | None => p
  end.

(** The held snapshot after a cycle: the held records the server still
    has, refreshed and in their order, then the fetched records of new ids
    in the order of the fetch. *)
Definition merged (held data : list record) : list record :=
  map (refresh data) (List.filter (known_in data) held) ++
  List.filter (fun f => negb (known_in held f)) data.

(** The events of a cycle: one per fetched record that is new or differs,
    in the order of the fetch, then one per held record the server dropped,
    in the order of the snapshot. *)
Definition issued (held data : list record) : list ui_event :=
  flat_map (event_for held) data ++
  map Delete (List.filter (fun p => negb (known_in data p)) held).

End Merge.

(* ===================================================================== *)
(** ** From the server to the client *)
(* ===================================================================== *)

Module Wire.
Import Js App ChangePower.

(** What [response.json()] makes of an entity the server sent with
    [res.json]: a new object, at the reference [r], with the four
    properties in the order the server wrote them. *)
Definition to_record (r : ref) (p : Server.pokemon) : record :=
  {| rref := r;
     rprops := [("id", VNum (Server.id p)); ("name", VStr (Server.name p));
                ("image", VStr (Server.image p));
                ("powerLevel", VNum (Server.powerLevel p))] |}.

(** The answer [changePower] gets when the server sent [resp]. *)
Definition deliver (r : ref) (resp : Server.response) : power_answer :=
  Answer (Server.status resp)
    (Body match Server.json resp with
          | Server.Changed flag p =>
              {| success := flag; pokemon := Some (to_record r p); message := None |}
          | Server.NotFound flag text =>
              {| success := flag; pokemon := None; message := Some text |}
          end).

End Wire.

(* ===================================================================== *)
(** ** Facts about values *)
(* ===================================================================== *)

Module JsFacts.
Import Js.

Lemma strict_eq_refl v : strict_eq v v = true.
Proof.
  destruct v; simpl; auto using Bool.eqb_reflx, Z.eqb_refl, String.eqb_refl, Nat.eqb_refl.
Qed.

Lemma strict_eq_sym a b : strict_eq a b = strict_eq b a.
Proof.
  destruct a, b; simpl; auto using Z.eqb_sym, String.eqb_sym, Nat.eqb_sym.
  destruct b, b0; reflexivity.
Qed.

Lemma strict_eq_trans a b c :
  strict_eq a b = true -> strict_eq b c = true -> strict_eq a c = true.
Proof.
  destruct a, b; simpl; try discriminate; destruct c; simpl; try discriminate; auto.
  - intros H1 H2. apply Bool.eqb_prop in H1, H2. subst. apply Bool.eqb_reflx.
  - intros H1 H2. apply Z.eqb_eq in H1, H2. subst. apply Z.eqb_refl.
  - intros H1 H2. apply String.eqb_eq in H1, H2. subst. apply String.eqb_refl.
  - intros H1 H2. apply Nat.eqb_eq in H1, H2. subst. apply Nat.eqb_refl.
  - intros H1 H2. apply Nat.eqb_eq in H1, H2. subst. apply Nat.eqb_refl.
Qed.

(** On values that are not both composites, [===] is equality of trees. *)
Lemma strict_eq_prim a b :
  is_composite a = false \/ is_composite b = false ->
  strict_eq a b = true <-> a = b.
Proof.
  intros Hc. split.
  - destruct a, b; simpl; try discriminate; try reflexivity;
      try (destruct Hc as [Hc | Hc]; discriminate Hc).
    + intros H. apply Bool.eqb_prop in H. congruence.
    + intros H. apply Z.eqb_eq in H. congruence.
    + intros H. apply String.eqb_eq in H. congruence.
  - intros ->. apply strict_eq_refl.
Qed.

Lemma includes_elem_of key arr : includes key arr = true <-> key ∈ arr.
Proof.
  unfold includes. rewrite existsb_exists. split.
  - intros (k & Hin & Heq). apply String.eqb_eq in Heq. subst.
    by apply list_elem_of_In.
  - intros Hin. exists key. split; [by apply list_elem_of_In | apply String.eqb_refl].
Qed.

Lemma assoc_Some_elem key props x :
  assoc key props = Some x -> (key, x) ∈ props.
Proof.
  induction props as [|[k y] rest IH]; simpl; [discriminate|].
  destruct (String.eqb_spec k key) as [-> | Hne].
  - intros [= ->]. left.
  - intros H. right. auto.
Qed.

Lemma assoc_None key props : assoc key props = None <-> key ∉ map fst props.
Proof.
  induction props as [|[k y] rest IH]; simpl.
  - split; [intros _; apply not_elem_of_nil | reflexivity].
  - destruct (String.eqb_spec k key) as [-> | Hne].
    + split; [discriminate|]. intros H. exfalso. apply H. left.
    + rewrite IH, not_elem_of_cons. split; [intros H; split; congruence | intros [_ H]; exact H].
Qed.

(** With one value per key, every entry is what the lookup of its key finds. *)
Lemma assoc_NoDup key props x :
  NoDup (map fst props) -> (key, x) ∈ props -> assoc key props = Some x.
Proof.
  induction props as [|[k y] rest IH]; simpl; intros Hnd Hin.
  - by apply elem_of_nil in Hin.
  - apply NoDup_cons in Hnd as [Hk Hnd].
    apply elem_of_cons in Hin as [[= <- <-] | Hin].
    + by rewrite String.eqb_refl.
    + destruct (String.eqb_spec k key) as [-> | Hne]; [|auto].
      exfalso. apply Hk. apply (list_elem_of_fmap_2 fst) in Hin. exact Hin.
Qed.

Lemma imap_keys (g : nat -> string) (l : list value) :
  map fst (imap (fun i x => (g i, x)) l) = map g (seq 0 (length l)).
Proof.
  revert g. induction l as [|x l IH]; intros g; simpl; [reflexivity|].
  f_equal. rewrite <- seq_shift, map_map. apply (IH (fun i => g (S i))).
Qed.

Lemma keys_arr r elems : keys (VArr r elems) = map index_key (seq 0 (length elems)).
Proof. apply imap_keys. Qed.

(** An array never has two equal keys. *)
Lemma distinct_keys_arr r elems : distinct_keys (VArr r elems).
Proof.
  unfold distinct_keys. rewrite keys_arr.
  apply NoDup_fmap_2; [apply pretty_nat_inj|]. apply NoDup_ListNoDup, seq_NoDup.
Qed.

End JsFacts.

(* ===================================================================== *)
(** ** Facts about [deepEqual] *)
(* ===================================================================== *)

Module DeepCompareFacts.
Import Js JsFacts DeepCompare.

(** One unfolding of the function, path by path. *)
Lemma deepEqual_eq obj1 obj2 :
  deepEqual obj1 obj2 =
  if strict_eq obj1 obj2 then true
  else if negb (is_composite obj1) || negb (is_composite obj2) then false
  else if negb (Nat.eqb (length (keys obj1)) (length (keys obj2))) then false
  else match obj1 with
       | VObj _ props1 => each_entry (check_key deepEqual obj2) props1
       | VArr _ elems1 => each_elem (check_key deepEqual obj2) 0 elems1
       | _ => true
       end.
Proof.
  destruct obj1; simpl; try reflexivity;
    destruct obj2; simpl; try reflexivity;
    repeat match goal with |- context [if ?c then _ else _] => destruct c end;
    reflexivity.
Qed.

Lemma deepEqual_not_composite a b :
  is_composite a = false \/ is_composite b = false ->
  deepEqual a b = strict_eq a b.
Proof.
  intros Hc. rewrite deepEqual_eq.
  destruct (strict_eq a b); [reflexivity|].
  destruct Hc as [-> | ->]; simpl; [reflexivity|].
  by rewrite orb_true_r.
Qed.

Lemma value_equal_deepEqual v1 v2 : value_equal v1 v2 = deepEqual v1 v2.
Proof.
  unfold value_equal.
  destruct (typeof_object v1 && typeof_object v2) eqn:Ht; [reflexivity|].
  symmetry. apply deepEqual_not_composite.
  unfold is_composite. apply andb_false_iff in Ht as [-> | ->]; auto.
Qed.

Lemma each_elem_entries body i elems :
  each_elem body i elems =
  each_entry body (imap (fun j x => (index_key (i + j), x)) elems).
Proof.
  revert i. induction elems as [|x rest IH]; intros i; simpl; [reflexivity|].
  rewrite Nat.add_0_r. f_equal. rewrite IH. f_equal.
  apply imap_ext. intros j y _. simpl. do 2 f_equal. lia.
Qed.

(** The loop over the entries is the loop over the keys at which the source
    reads [obj1[key]], as soon as [obj1] holds one value per key. *)
Lemma loop_keys_agree obj1 obj2 :
  distinct_keys obj1 ->
  each_entry (check_key deepEqual obj2) (own_props obj1) = keys_agree obj1 obj2.
Proof.
  intros Hnd. unfold keys_agree, keys at 2.
  assert (forall entries,
            (forall k v, (k, v) ∈ entries -> assoc k (own_props obj1) = Some v) ->
            each_entry (check_key deepEqual obj2) entries =
            forallb (fun key => includes key (keys obj2) &&
                                value_equal (get obj1 key) (get obj2 key))
                    (map fst entries)) as Hloop.
  { induction entries as [|[k v] rest IH]; intros Hget; simpl; [reflexivity|].
    rewrite IH by (intros; apply Hget; by right).
    assert (get obj1 k = v) as -> by (unfold get; by rewrite (Hget k v) by left).
    reflexivity. }
  apply Hloop. intros k v Hin. by apply assoc_NoDup.
Qed.

(** [deepEqual] on two composites, in the shape of the source: the
    reference shortcut, the key-count test, then the loop over [keys1]. *)
Lemma deepEqual_composite a b :
  is_composite a = true -> is_composite b = true -> distinct_keys a ->
  deepEqual a b =
  strict_eq a b ||
  (Nat.eqb (length (keys a)) (length (keys b)) && keys_agree a b).
Proof.
  intros Ha Hb Hnd. rewrite deepEqual_eq, Ha, Hb. simpl.
  destruct (strict_eq a b); [reflexivity|]. simpl.
  destruct (Nat.eqb _ _); [|reflexivity]. simpl.
  rewrite <- (loop_keys_agree a b Hnd).
  destruct a; try discriminate Ha; simpl.
  - apply each_elem_entries.
  - reflexivity.
Qed.

Lemma keys_agree_spec a b :
  keys_agree a b = true <->
  forall key, key ∈ keys a ->
              key ∈ keys b /\ deepEqual (get a key) (get b key) = true.
Proof.
  unfold keys_agree. rewrite forallb_forall. split.
  - intros H key Hin. apply list_elem_of_In, H in Hin.
    apply andb_true_iff in Hin as [Hinc Heq].
    rewrite value_equal_deepEqual in Heq. by apply includes_elem_of in Hinc.
  - intros H key Hin. apply list_elem_of_In, H in Hin as [Hinc Heq].
    rewrite value_equal_deepEqual, Heq. apply includes_elem_of in Hinc.
    by rewrite Hinc.
Qed.

(** With one value per key on both sides, equal counts and inclusion of the
    keys amount to the same set of keys. *)
Lemma same_keys_iff (ks1 ks2 : list string) :
  NoDup ks1 -> NoDup ks2 ->
  (length ks1 = length ks2 /\ forall k, k ∈ ks1 -> k ∈ ks2) <->
  (forall k, k ∈ ks1 <-> k ∈ ks2).
Proof.
  intros Hnd1 Hnd2. split.
  - intros [Hlen Hsub] k. split; [apply Hsub|].
    assert (ks1 ≡ₚ ks2) as Hp.
    { apply submseteq_length_Permutation; [by apply NoDup_submseteq | lia]. }
    by rewrite Hp.
  - intros Hset. split; [|intros k; apply Hset].
    apply Permutation_length. by apply NoDup_Permutation.
Qed.

(** *** Values of equal content *)

Lemma erase_composite a b :
  erase a = erase b -> is_composite b = is_composite a.
Proof. destruct a, b; simpl; intros H; try discriminate H; reflexivity. Qed.

Lemma erase_not_composite a b :
  is_composite a = false -> erase a = erase b -> b = a.
Proof.
  destruct a; try discriminate; destruct b; simpl; intros _ H;
    try discriminate H; congruence.
Qed.

Lemma erase_own_props a b :
  erase a = erase b -> Forall2 entry_alike (own_props a) (own_props b).
Proof.
  destruct a as [| | | | |r l|r ps], b as [| | | | |r' l'|r' ps']; simpl;
    intros H; try discriminate H; try constructor.
  - injection H as H. apply Forall2_same_length_lookup. split.
    + rewrite !length_imap. apply (f_equal length) in H. by rewrite !length_map in H.
    + intros i e1 e2. rewrite !list_lookup_imap.
      destruct (l !! i) as [x|] eqn:Hx; [|discriminate].
      destruct (l' !! i) as [y|] eqn:Hy; [|discriminate].
      intros [= <-] [= <-]. split; [done|]. simpl.
      assert (map erase l !! i = map erase l' !! i) as Hi by by rewrite H.
      rewrite !list_lookup_fmap, Hx, Hy in Hi. by injection Hi.
  - injection H as H. apply Forall2_same_length_lookup. split.
    + apply (f_equal length) in H. by rewrite !length_map in H.
    + intros i e1 e2 H1 H2.
      assert (map (fun kv => (fst kv, erase (snd kv))) ps !! i
              = map (fun kv => (fst kv, erase (snd kv))) ps' !! i) as Hi by by rewrite H.
      rewrite !list_lookup_fmap, H1, H2 in Hi. by injection Hi.
Qed.

Lemma entries_alike_keys es1 es2 :
  Forall2 entry_alike es1 es2 -> map fst es1 = map fst es2.
Proof. induction 1 as [|e1 e2 l1 l2 [Hk _] _ IH]; simpl; congruence. Qed.

(** Lookups in entries that are alike find values of equal content. *)
Lemma entries_alike_assoc es1 es2 key :
  Forall2 entry_alike es1 es2 ->
  match assoc key es1, assoc key es2 with
  | Some v1, Some v2 => erase v1 = erase v2
  | None, None => True
  | _, _ => False
  end.
Proof.
  induction 1 as [|[k1 v1] [k2 v2] l1 l2 [Hk Hv] _ IH]; simpl in *; [done|].
  subst k2. by destruct (String.eqb k1 key).
Qed.

Lemma erase_get a b key : erase a = erase b -> erase (get a key) = erase (get b key).
Proof.
  intros H. pose proof (entries_alike_assoc _ _ key (erase_own_props a b H)) as Hk.
  unfold get. by destruct (assoc key (own_props a)), (assoc key (own_props b)).
Qed.

Lemma erase_keys a b : erase a = erase b -> keys a = keys b.
Proof. intros H. by apply entries_alike_keys, erase_own_props. Qed.

Lemma get_own_props a key :
  key ∈ keys a -> (key, get a key) ∈ own_props a.
Proof.
  intros Hk. unfold get. destruct (assoc key (own_props a)) as [x|] eqn:Hx.
  - by apply assoc_Some_elem.
  - by apply assoc_None in Hx.
Qed.

Lemma composite_alike a b :
  is_composite a = true -> distinct_keys a ->
  (forall key v1, (key, v1) ∈ own_props a ->
     forall b', erase v1 = erase b' -> deepEqual v1 b' = true) ->
  erase a = erase b -> deepEqual a b = true.
Proof.
  intros Ha Hka IH Hab.
  rewrite deepEqual_composite; [|done|by rewrite (erase_composite a b)|done].
  apply orb_true_iff. right. apply andb_true_iff. split.
  - by rewrite (erase_keys a b), Nat.eqb_refl.
  - apply keys_agree_spec. intros key Hkey. split.
    + by rewrite <- (erase_keys a b).
    + apply (IH key); [by apply get_own_props | by apply erase_get].
Qed.

(** Values of equal content are [deepEqual]: a freshly parsed copy equals
    the original. *)
Lemma deepEqual_erase a :
  well_formed a -> forall c, erase a = erase c -> deepEqual a c = true.
Proof.
  induction a as [| | | | |r elems IH|r props IH] using value_ind;
    intros Hwf c Hab;
    try (apply erase_not_composite in Hab; [|reflexivity]; subst c;
         by rewrite deepEqual_eq, strict_eq_refl).
  - apply composite_alike; [done | apply distinct_keys_arr | | done].
    intros key v1 Hin. inversion Hwf as [| | | | |? ? Hall|]; subst.
    simpl in Hin. apply list_elem_of_lookup in Hin as [i Hi].
    rewrite list_lookup_imap in Hi.
    destruct (elems !! i) as [x|] eqn:Hx; [|discriminate]. injection Hi as _ <-.
    apply list_elem_of_lookup_2 in Hx.
    rewrite Forall_forall in IH, Hall. apply IH; [done|]. by apply Hall.
  - inversion Hwf as [| | | | | |? ? Hnd Hall]; subst.
    apply composite_alike; [done | done | | done].
    intros key v1 Hin. simpl in Hin.
    rewrite Forall_forall in IH, Hall.
    apply (IH (key, v1)); [done|]. by apply (Hall (key, v1)).
Qed.

(** *** Values with no object in common *)

Lemma erase_typeof a b : erase a = erase b -> typeof_object b = typeof_object a.
Proof. destruct a, b; simpl; intros H; try discriminate H; reflexivity. Qed.

Lemma refs_own_props a key v r :
  (key, v) ∈ own_props a -> r ∈ refs v -> r ∈ refs a.
Proof.
  destruct a as [| | | | |r0 l|r0 ps]; simpl; intros Hin Hr;
    try by apply elem_of_nil in Hin.
  - right. apply list_elem_of_In, in_flat_map. exists v. split; [|by apply list_elem_of_In].
    apply list_elem_of_lookup in Hin as [i Hi]. rewrite list_lookup_imap in Hi.
    destruct (l !! i) as [x|] eqn:Hx; [|discriminate]. injection Hi as _ <-.
    by eapply list_elem_of_In, list_elem_of_lookup_2.
  - right. apply list_elem_of_In, in_flat_map. exists (key, v).
    split; by apply list_elem_of_In.
Qed.

Lemma refs_get a key r : r ∈ refs (get a key) -> r ∈ refs a.
Proof.
  unfold get. destruct (assoc key (own_props a)) as [x|] eqn:Hx.
  - apply refs_own_props with key. by apply assoc_Some_elem.
  - intros Hr. by apply elem_of_nil in Hr.
Qed.

Lemma refs_head_composite a :
  is_composite a = true -> exists r, r ∈ refs a /\
    forall b, strict_eq a b = true -> r ∈ refs b.
Proof.
  destruct a as [| | | | |r l|r ps]; try discriminate; intros _; exists r;
    (split; [left|]); intros [| | | | |r' l'|r' ps']; simpl; try discriminate;
    intros ->%Nat.eqb_eq; left.
Qed.

(** [===] cannot tell two values of equal content apart from a value that
    shares no object with them. *)
Lemma strict_eq_apart a b b' :
  apart a b -> apart a b' -> erase b = erase b' ->
  strict_eq a b = strict_eq a b'.
Proof.
  intros Hb Hb' He. destruct (is_composite a) eqn:Ha.
  - destruct (refs_head_composite a Ha) as (r & Hr & Hsame).
    destruct (strict_eq a b) eqn:H1; [by apply Hsame, Hb in H1|].
    destruct (strict_eq a b') eqn:H2; [by apply Hsame, Hb' in H2 | done].
  - destruct (strict_eq a b) eqn:H1.
    + apply strict_eq_prim in H1; [|by left]. subst b.
      apply erase_not_composite in He; [|done]. subst b'.
      symmetry. apply strict_eq_refl.
    + destruct (strict_eq a b') eqn:H2; [|done].
      apply strict_eq_prim in H2; [|by left]. subst b'.
      symmetry in He. apply erase_not_composite in He; [|done]. subst b.
      by rewrite strict_eq_refl in H1.
Qed.

Lemma apart_get a b key : apart a b -> apart a (get b key).
Proof. intros Hab r Hr Hg. apply (Hab r Hr). by eapply refs_get. Qed.

Lemma apart_entry a b key v :
  (key, v) ∈ own_props a -> apart a b -> apart v b.
Proof. intros Hin Hab r Hr. apply Hab. by eapply refs_own_props. Qed.

Lemma each_entry_ext body1 body2 entries :
  (forall key v, (key, v) ∈ entries -> body1 key v = body2 key v) ->
  each_entry body1 entries = each_entry body2 entries.
Proof.
  induction entries as [|[k v] rest IH]; intros Hext; simpl; [done|].
  rewrite (Hext k v) by left. f_equal. apply IH. intros; apply Hext; by right.
Qed.

Lemma loop_own_props a b :
  is_composite a = true ->
  match a with
  | VObj _ props1 => each_entry (check_key deepEqual b) props1
  | VArr _ elems1 => each_elem (check_key deepEqual b) 0 elems1
  | _ => true
  end = each_entry (check_key deepEqual b) (own_props a).
Proof.
  destruct a; try discriminate; intros _; simpl; [|done]. apply each_elem_entries.
Qed.

(** [deepEqual] cannot tell them apart either: comparing a held value with
    a fetched one and with a later copy of the fetched one gives the same. *)
Lemma deepEqual_apart a :
  forall c c', apart a c -> apart a c' -> erase c = erase c' ->
               deepEqual a c = deepEqual a c'.
Proof.
  assert (forall a,
            (forall key v, (key, v) ∈ own_props a ->
               forall c c', apart v c -> apart v c' -> erase c = erase c' ->
                            deepEqual v c = deepEqual v c') ->
            forall c c', apart a c -> apart a c' -> erase c = erase c' ->
                         deepEqual a c = deepEqual a c') as Hstep.
  { clear a. intros a IH c c' Hc Hc' He. rewrite !deepEqual_eq.
    rewrite (strict_eq_apart a c c') by done.
    rewrite (erase_composite c c' He), (erase_keys c c' He).
    destruct (strict_eq a c'); [done|].
    destruct (is_composite a) eqn:Ha; [|done]. simpl.
    destruct (negb (is_composite c)); [done|]. simpl.
    destruct (negb _); [done|].
    rewrite !loop_own_props by done. apply each_entry_ext.
    intros key v Hin. unfold check_key.
    rewrite (erase_keys c c' He).
    rewrite (erase_typeof _ _ (erase_get c c' key He)).
    destruct (includes key (keys c')); [|done]. simpl.
    destruct (typeof_object v && typeof_object (get c key)).
    - apply (IH key v Hin); [| |by apply erase_get];
        by eapply apart_get, apart_entry.
    - apply strict_eq_apart; [| |by apply erase_get];
        by eapply apart_get, apart_entry. }
  induction a as [| | | | |r elems IH|r props IH] using value_ind;
    apply Hstep; simpl; try (intros key v Hin; by apply elem_of_nil in Hin).
  - intros key v Hin. apply list_elem_of_lookup in Hin as [i Hi].
    rewrite list_lookup_imap in Hi.
    destruct (elems !! i) as [x|] eqn:Hx; [|discriminate]. injection Hi as _ <-.
    rewrite Forall_forall in IH. apply IH. by eapply list_elem_of_lookup_2.
  - intros key v Hin. rewrite Forall_forall in IH. by apply (IH (key, v)).
Qed.

End DeepCompareFacts.

(* ===================================================================== *)
(** ** Facts about the client *)
(* ===================================================================== *)

Module AppFacts.
Import Js JsFacts DeepCompare DeepCompareFacts App.

Lemma same_id_refl p : same_id p p = true.
Proof. apply strict_eq_refl. Qed.

Lemma same_id_sym p q : same_id p q = same_id q p.
Proof. apply strict_eq_sym. Qed.

Lemma same_id_trans p q r :
  same_id p q = true -> same_id q r = true -> same_id p r = true.
Proof. apply strict_eq_trans. Qed.

Lemma same_id_congr p q r : same_id p q = true -> same_id p r = same_id q r.
Proof.
  intros Hpq. destruct (same_id q r) eqn:Hqr.
  - eauto using same_id_trans.
  - destruct (same_id p r) eqn:Hpr; [|reflexivity].
    rewrite same_id_sym in Hpq. rewrite <- Hqr. symmetry. eauto using same_id_trans.
Qed.

Lemma isEqual_refl p : isEqual p p = true.
Proof.
  unfold isEqual. rewrite deepEqual_eq. by rewrite strict_eq_refl.
Qed.

Lemma find_known_in data q :
  List.find (fun p => same_id p q) data = None <-> known_in data q = false.
Proof.
  unfold known_in. induction data as [|p rest IH]; simpl; [tauto|].
  destruct (same_id p q); simpl; [split; discriminate | exact IH].
Qed.

Lemma known_in_spec data q :
  known_in data q = true <-> exists p, p ∈ data /\ same_id p q = true.
Proof.
  unfold known_in. rewrite existsb_exists.
  split; intros (p & Hin & Hid); exists p; split; auto; by apply list_elem_of_In.
Qed.

Lemma known_in_congr data p q :
  same_id p q = true -> known_in data p = known_in data q.
Proof.
  intros Hpq. unfold known_in.
  induction data as [|x rest IH]; simpl; [reflexivity|].
  rewrite IH, !(same_id_sym x). f_equal. by apply same_id_congr.
Qed.

(** *** The second loop *)

(** Running the callback of [localPokemons.forEach] over an array [arr]
    while the variable holds [locals]. *)
Lemma delete_loop data arr locals ui :
  fold_left (onLocalPokemon data) arr (locals, ui) =
  (List.filter
     (fun q => negb (existsb (fun p => negb (known_in data p) && same_id q p) arr))
     locals,
   ui ++ map Delete (List.filter (fun p => negb (known_in data p)) arr)).
Proof.
  revert locals ui. induction arr as [|p arr IH]; intros locals ui; simpl.
  - rewrite app_nil_r. f_equal. induction locals as [|q l IHl]; simpl; congruence.
  - destruct (List.find _ data) eqn:Hfind.
    + assert (known_in data p = true) as ->.
      { destruct (known_in data p) eqn:Hk; [reflexivity|].
        apply find_known_in in Hk. congruence. }
      simpl. apply IH.
    + apply find_known_in in Hfind. rewrite Hfind. simpl.
      rewrite IH. f_equal.
      * clear. induction locals as [|q l IHl]; simpl; [reflexivity|].
        destruct (same_id q p); simpl; [exact IHl|].
        destruct (existsb _ arr); simpl; congruence.
      * rewrite <- app_assoc. reflexivity.
Qed.

(** Over the array itself, the records that survive are those whose id the
    fetched data knows. *)
Lemma delete_loop_self data arr :
  List.filter
    (fun q => negb (existsb (fun p => negb (known_in data p) && same_id q p) arr))
    arr
  = List.filter (known_in data) arr.
Proof.
  apply filter_ext_in. intros q Hq.
  destruct (known_in data q) eqn:Hk.
  - apply negb_true_iff, not_true_iff_false. intros Hex.
    apply existsb_exists in Hex as (p & _ & Hp).
    apply andb_true_iff in Hp as [Hnk Hid].
    rewrite (known_in_congr data q p Hid) in Hk.
    by rewrite Hk in Hnk.
  - apply negb_false_iff, existsb_exists. exists q.
    split; [exact Hq|]. by rewrite Hk, same_id_refl.
Qed.

(** *** Lookup by id *)

Lemma find_first_with_id l f p :
  List.find (fun q => same_id q f) l = Some p <-> exists i, first_with_id l f i p.
Proof.
  unfold first_with_id. induction l as [|y rest IH]; simpl.
  - split; [discriminate|]. intros (i & Hi & _). by destruct i.
  - destruct (same_id y f) eqn:Hy.
    + split.
      * intros [= ->]. exists 0. repeat split; auto. intros j q Hj. lia.
      * intros (i & Hi & Hp & Hfirst). destruct i as [|i]; [simpl in Hi; congruence|].
        specialize (Hfirst 0 y). simpl in Hfirst.
        rewrite Hfirst in Hy by (auto; lia). discriminate.
    + rewrite IH. split.
      * intros (i & Hi & Hp & Hfirst). exists (S i). repeat split; auto.
        intros [|j] q Hj Hq; simpl in Hq; [congruence|].
        apply (Hfirst j); [lia | done].
      * intros (i & Hi & Hp & Hfirst). destruct i as [|i]; [simpl in Hi; congruence|].
        exists i. repeat split; auto.
        intros j q Hj Hq. apply (Hfirst (S j)); [lia | done].
Qed.

Lemma find_elem_of l f p :
  List.find (fun q => same_id q f) l = Some p -> p ∈ l /\ same_id p f = true.
Proof.
  intros H. apply find_some in H as [Hin Hid]. split; [by apply list_elem_of_In | done].
Qed.

Lemma indexOf_Some x l i :
  indexOf x l = Some i ->
  exists y, l !! i = Some y /\ rref y = rref x.
Proof.
  revert i. induction l as [|y rest IH]; intros i; simpl; [discriminate|].
  destruct (Nat.eqb_spec (rref y) (rref x)) as [Heq | Hne].
  - intros [= <-]. by exists y.
  - destruct (indexOf x rest) as [n|]; [|discriminate].
    intros [= <-]. simpl. by apply IH.
Qed.

(** The object that [find] returned is found again by [indexOf]. *)
Lemma indexOf_elem_of x l : x ∈ l -> is_Some (indexOf x l).
Proof.
  induction 1 as [x l | x y l Hin IH]; simpl.
  - rewrite Nat.eqb_refl. by eexists.
  - destruct (Nat.eqb _ _); [by eexists|]. destruct IH as [n ->]. by eexists.
Qed.

(** So the assignment of the first loop never goes to [-1]. *)
Lemma indexOf_found l f p :
  List.find (fun q => same_id q f) l = Some p ->
  exists i y, indexOf p l = Some i /\ l !! i = Some y /\ rref y = rref p.
Proof.
  intros [Hin _]%find_elem_of. destruct (indexOf_elem_of p l Hin) as [i Hi].
  destruct (indexOf_Some p l i Hi) as (y & Hy & Href). by exists i, y.
Qed.

(** When a reference denotes one object, [indexOf] lands on the position
    at which [find] found the record. *)
Lemma indexOf_first l f i p :
  coherent l -> first_with_id l f i p -> indexOf p l = Some i.
Proof.
  revert i. induction l as [|y rest IH]; intros i Hco (Hi & Hp & Hfirst).
  - by destruct i.
  - simpl. destruct i as [|i].
    + simpl in Hi. injection Hi as ->. by rewrite Nat.eqb_refl.
    + simpl in Hi. destruct (Nat.eqb_spec (rref y) (rref p)) as [Heq | Hne].
      * assert (y = p) as ->.
        { apply Hco; [left | right; by eapply list_elem_of_lookup_2 | done]. }
        rewrite (Hfirst 0 p) in Hp by (auto; lia). discriminate.
      * rewrite (IH i); [reflexivity| |].
        -- intros a b Ha Hb. apply Hco; by right.
        -- repeat split; auto. intros j q Hj Hq. apply (Hfirst (S j)); [lia | done].
Qed.

(** *** One fetched record *)

Lemma step_update l ui f i p :
  coherent l -> first_with_id l f i p -> isEqual p f = false ->
  onServerPokemon (l, ui) f = (<[i := f]> l, ui ++ [Update f]).
Proof.
  intros Hco Hfirst Hne. unfold onServerPokemon.
  assert (List.find (fun q => same_id q f) l = Some p) as ->
    by (apply find_first_with_id; eauto).
  by rewrite Hne, (indexOf_first l f i p).
Qed.

Lemma step_keep l ui f p :
  List.find (fun q => same_id q f) l = Some p -> isEqual p f = true ->
  onServerPokemon (l, ui) f = (l, ui).
Proof. intros Hfind Heq. unfold onServerPokemon. by rewrite Hfind, Heq. Qed.

Lemma step_create l ui f :
  List.find (fun q => same_id q f) l = None ->
  onServerPokemon (l, ui) f = (l ++ [f], ui ++ [Create f]).
Proof. intros Hfind. unfold onServerPokemon. by rewrite Hfind. Qed.

Lemma step_cases l ui f :
  coherent l -> step_case l ui f (onServerPokemon (l, ui) f).
Proof.
  intros Hco. destruct (List.find (fun q => same_id q f) l) as [p|] eqn:Hfind.
  - destruct (isEqual p f) eqn:Heq.
    + rewrite (step_keep l ui f p) by done. by eapply case_keep.
    + pose proof Hfind as Hfirst. apply find_first_with_id in Hfirst as [i Hi].
      rewrite (step_update l ui f i p) by done. by eapply case_update.
  - rewrite step_create by done. by apply case_create.
Qed.

Lemma elem_of_insert_inv (l : list record) i x y :
  y ∈ <[i := x]> l -> y ∈ l \/ y = x.
Proof.
  intros Hin. apply list_elem_of_lookup in Hin as [j Hj].
  destruct (decide (i = j)) as [-> | Hne].
  - destruct (decide (j < length l)) as [Hlt | Hge].
    + rewrite list_lookup_insert_eq in Hj by done. right. congruence.
    + rewrite list_insert_ge in Hj by lia. left. by eapply list_elem_of_lookup_2.
  - rewrite list_lookup_insert_ne in Hj by done. left. by eapply list_elem_of_lookup_2.
Qed.

(** A step only ever adds the fetched record. *)
Lemma step_elem_of l ui f x :
  x ∈ fst (onServerPokemon (l, ui) f) -> x ∈ l \/ x = f.
Proof.
  unfold onServerPokemon.
  destruct (List.find _ l) as [p|]; [destruct (isEqual p f)|]; simpl.
  - auto.
  - destruct (indexOf p l); simpl; [apply elem_of_insert_inv | auto].
  - rewrite elem_of_app, list_elem_of_singleton. tauto.
Qed.

Lemma step_elem_of_app l ui f rest x :
  x ∈ fst (onServerPokemon (l, ui) f) ++ rest -> x ∈ l ++ f :: rest.
Proof.
  rewrite !elem_of_app, elem_of_cons. intros [Hx | Hx]; [|auto].
  apply step_elem_of in Hx. tauto.
Qed.

Lemma coherent_step l ui f rest :
  coherent (l ++ f :: rest) ->
  coherent (fst (onServerPokemon (l, ui) f) ++ rest).
Proof. intros Hco p q Hp Hq. apply Hco; by eapply step_elem_of_app. Qed.

Lemma coherent_app_l l k : coherent (l ++ k) -> coherent l.
Proof. intros Hco p q Hp Hq. apply Hco; apply elem_of_app; by left. Qed.

Lemma snd_step l ui f :
  snd (onServerPokemon (l, ui) f) = ui ++ snd (onServerPokemon (l, []) f).
Proof.
  unfold onServerPokemon.
  destruct (List.find _ l) as [p|]; [destruct (isEqual p f)|]; simpl;
    by rewrite ?app_nil_r.
Qed.

(** *** [find] across the updates of the first loop *)

Section Find.
Context (h : record -> bool).

Lemma find_insert_other (l : list record) i p x :
  l !! i = Some p -> h p = false -> h x = false ->
  List.find h (<[i := x]> l) = List.find h l.
Proof.
  revert i. induction l as [|y rest IH]; intros i Hi Hp Hx; [done|].
  destruct i as [|i]; simpl in *.
  - injection Hi as ->. by rewrite Hp, Hx.
  - destruct (h y); [done|]. by apply IH.
Qed.

Lemma find_insert_first (l : list record) i x :
  i < length l -> h x = true ->
  (forall j q, j < i -> l !! j = Some q -> h q = false) ->
  List.find h (<[i := x]> l) = Some x.
Proof.
  revert i. induction l as [|y rest IH]; intros i Hi Hx Hfirst; simpl in Hi; [lia|].
  destruct i as [|i]; simpl.
  - by rewrite Hx.
  - rewrite (Hfirst 0 y) by (auto; lia). apply IH; [lia | done |].
    intros j q Hj Hq. apply (Hfirst (S j)); [lia | done].
Qed.

Lemma find_app_other (l : list record) x :
  h x = false -> List.find h (l ++ [x]) = List.find h l.
Proof.
  intros Hx. induction l as [|y rest IH]; simpl; [by rewrite Hx|].
  by destruct (h y).
Qed.

Lemma find_app_new (l : list record) x :
  List.find h l = None -> h x = true -> List.find h (l ++ [x]) = Some x.
Proof.
  intros Hl Hx. induction l as [|y rest IH]; simpl in *; [by rewrite Hx|].
  destruct (h y); [done|]. auto.
Qed.

Lemma find_filter (keep : record -> bool) (l : list record) :
  (forall x, h x = true -> keep x = true) ->
  List.find h (List.filter keep l) = List.find h l.
Proof.
  intros Hkeep. induction l as [|y rest IH]; simpl; [done|].
  destruct (h y) eqn:Hy.
  - by rewrite (Hkeep y Hy); simpl; rewrite Hy.
  - destruct (keep y); simpl; by rewrite ?Hy.
Qed.

End Find.

Lemma first_loop_cons f rest l ui :
  fold_left onServerPokemon (f :: rest) (l, ui) =
  fold_left onServerPokemon rest
    (fst (onServerPokemon (l, ui) f), snd (onServerPokemon (l, ui) f)).
Proof.
  change (fold_left onServerPokemon (f :: rest) (l, ui))
    with (fold_left onServerPokemon rest (onServerPokemon (l, ui) f)).
  by rewrite <- surjective_pairing.
Qed.

(** A step for [f] does not disturb the lookup of another id. *)
Lemma step_find_other l ui f g :
  coherent l -> same_id f g = false ->
  List.find (fun q => same_id q g) (fst (onServerPokemon (l, ui) f)) =
  List.find (fun q => same_id q g) l.
Proof.
  intros Hco Hfg. destruct (step_cases l ui f Hco) as [i p (Hi & Hp & _) _ | |]; simpl.
  - apply (find_insert_other _ l i p); [done| |done].
    by rewrite (same_id_congr p f g).
  - done.
  - by apply find_app_other.
Qed.

(** After its step, the lookup of [f] finds a record equal to [f]. *)
Lemma step_find_self l ui f :
  coherent l ->
  exists q, List.find (fun q => same_id q f) (fst (onServerPokemon (l, ui) f)) = Some q
            /\ isEqual q f = true.
Proof.
  intros Hco.
  destruct (step_cases l ui f Hco) as [i p (Hi & Hp & Hfirst) _ | p Hfind Heq | Hfind];
    simpl.
  - exists f. split; [|apply isEqual_refl].
    apply find_insert_first; [by eapply lookup_lt_Some | apply same_id_refl | done].
  - by exists p.
  - exists f. split; [|apply isEqual_refl].
    apply find_app_new; [done | apply same_id_refl].
Qed.

Lemma first_loop_find_other data l ui g :
  coherent (l ++ data) -> known_in data g = false ->
  List.find (fun q => same_id q g) (fst (fold_left onServerPokemon data (l, ui))) =
  List.find (fun q => same_id q g) l.
Proof.
  revert l ui. induction data as [|f rest IH]; intros l ui Hco Hg; [done|].
  simpl in Hg. apply orb_false_iff in Hg as [Hfg Hg].
  rewrite first_loop_cons, IH; [|by apply coherent_step | done].
  apply step_find_other; [by eapply coherent_app_l | done].
Qed.

Lemma settled_first_loop l data ui :
  settled l data -> fold_left onServerPokemon data (l, ui) = (l, ui).
Proof.
  induction data as [|f rest IH]; intros Hs; [done|].
  destruct (Hs f) as (q & Hq & Heq); [left|].
  rewrite first_loop_cons, (step_keep l ui f q) by done. apply IH.
  intros g Hg. apply Hs. by right.
Qed.

Lemma first_loop_settles data l ui :
  unique_ids data = true -> coherent (l ++ data) ->
  settled (fst (fold_left onServerPokemon data (l, ui))) data.
Proof.
  revert l ui. induction data as [|f rest IH]; intros l ui Hu Hco g Hg.
  - by apply elem_of_nil in Hg.
  - simpl in Hu. apply andb_true_iff in Hu as [Hf Hu]. apply negb_true_iff in Hf.
    rewrite first_loop_cons.
    assert (coherent (fst (onServerPokemon (l, ui) f) ++ rest)) as Hco1
      by by apply coherent_step.
    apply elem_of_cons in Hg as [-> | Hg]; [|by apply IH].
    rewrite first_loop_find_other by done.
    apply step_find_self. by eapply coherent_app_l.
Qed.

(** *** Events of the first loop *)

Lemma first_loop_events data l ui :
  exists events,
    snd (fold_left onServerPokemon data (l, ui)) = ui ++ events /\
    forallb is_upsert events = true.
Proof.
  revert l ui. induction data as [|f rest IH]; intros l ui.
  - exists []. by rewrite app_nil_r.
  - rewrite first_loop_cons.
    destruct (IH (fst (onServerPokemon (l, ui) f)) (snd (onServerPokemon (l, ui) f)))
      as (events & -> & Hup).
    rewrite snd_step, <- app_assoc. eexists. split; [reflexivity|].
    rewrite forallb_app, Hup, andb_true_r. unfold onServerPokemon.
    by destruct (List.find _ l) as [p|]; [destruct (isEqual p f)|].
Qed.

(** *** At most one record per id *)

Lemma known_in_app l k q : known_in (l ++ k) q = known_in l q || known_in k q.
Proof. unfold known_in. apply existsb_app. Qed.

Lemma known_in_filter keep l q :
  known_in (List.filter keep l) q = true -> known_in l q = true.
Proof.
  rewrite !known_in_spec. intros (p & Hin & Hid). exists p. split; [|done].
  apply list_elem_of_In. apply list_elem_of_In, filter_In in Hin. tauto.
Qed.

Lemma unique_ids_filter keep l :
  unique_ids l = true -> unique_ids (List.filter keep l) = true.
Proof.
  induction l as [|p rest IH]; simpl; [done|].
  intros [Hp Hu]%andb_true_iff. destruct (keep p); simpl; [|auto].
  rewrite IH by done. rewrite andb_true_r. apply negb_true_iff.
  apply negb_true_iff in Hp. destruct (known_in (List.filter keep rest) p) eqn:Hk; [|done].
  apply known_in_filter in Hk. congruence.
Qed.

Lemma unique_ids_snoc l f :
  unique_ids (l ++ [f]) = unique_ids l && negb (known_in l f).
Proof.
  induction l as [|p rest IH]; simpl; [done|].
  rewrite IH, known_in_app. simpl. rewrite orb_false_r, (same_id_sym f p).
  destruct (known_in rest p), (same_id p f), (unique_ids rest), (known_in rest f); done.
Qed.

Lemma known_in_same_ids l l' q q' :
  Forall2 (fun a b => same_id a b = true) l l' -> same_id q q' = true ->
  known_in l' q' = known_in l q.
Proof.
  intros Hall Hq. induction Hall as [|a b l l' Hab _ IH]; simpl; [done|].
  rewrite IH. f_equal.
  rewrite <- (same_id_congr a b q') by done. rewrite !(same_id_sym a).
  symmetry. by apply same_id_congr.
Qed.

(** Whether ids repeat depends on the ids alone. *)
Lemma unique_ids_same_ids l l' :
  Forall2 (fun a b => same_id a b = true) l l' -> unique_ids l' = unique_ids l.
Proof.
  induction 1 as [|a b l l' Hab Hall IH]; simpl; [done|].
  by rewrite IH, (known_in_same_ids l l' a b).
Qed.

Lemma unique_ids_insert l i p f :
  l !! i = Some p -> same_id p f = true ->
  unique_ids (<[i := f]> l) = unique_ids l.
Proof.
  intros Hi Hp. apply unique_ids_same_ids.
  rewrite <- (list_insert_id l i p) at 1 by done.
  apply Forall2_insert; [|done].
  apply Forall2_same_length_lookup. split; [done|].
  intros j x y Hx Hy. rewrite Hx in Hy. injection Hy as ->. apply same_id_refl.
Qed.

Lemma unique_ids_step l ui f :
  coherent l -> unique_ids l = true ->
  unique_ids (fst (onServerPokemon (l, ui) f)) = true.
Proof.
  intros Hco Hu.
  destruct (step_cases l ui f Hco) as [i p (Hi & Hp & _) _ | | Hfind]; simpl.
  - by rewrite (unique_ids_insert l i p).
  - done.
  - apply find_known_in in Hfind. by rewrite unique_ids_snoc, Hu, Hfind.
Qed.

Lemma unique_ids_first_loop data l ui :
  coherent (l ++ data) -> unique_ids l = true ->
  unique_ids (fst (fold_left onServerPokemon data (l, ui))) = true.
Proof.
  revert l ui. induction data as [|f rest IH]; intros l ui Hco Hu; [done|].
  rewrite first_loop_cons. apply IH; [by apply coherent_step|].
  apply unique_ids_step; [by eapply coherent_app_l | done].
Qed.

Lemma unique_ids_lookup l i j p q :
  unique_ids l = true -> l !! i = Some p -> l !! j = Some q ->
  same_id p q = true -> i = j.
Proof.
  revert i j. induction l as [|x rest IH]; intros i j Hu Hi Hj Hid; [by destruct i|].
  simpl in Hu. apply andb_true_iff in Hu as [Hx Hu]. apply negb_true_iff in Hx.
  assert (forall y, y ∈ rest -> same_id y x = false) as Hrest.
  { intros y Hy. destruct (same_id y x) eqn:Hyx; [|done].
    assert (known_in rest x = true) by (apply known_in_spec; eauto). congruence. }
  destruct i as [|i], j as [|j]; simpl in *.
  - done.
  - injection Hi as ->. apply list_elem_of_lookup_2, Hrest in Hj.
    rewrite same_id_sym in Hj. congruence.
  - injection Hj as ->. apply list_elem_of_lookup_2, Hrest in Hi. congruence.
  - f_equal. by apply IH.
Qed.

(** With unique ids, the lookup of a held record's id finds that record. *)
Lemma unique_ids_find l p f :
  unique_ids l = true -> p ∈ l -> same_id p f = true ->
  List.find (fun q => same_id q f) l = Some p.
Proof.
  intros Hu Hin Hid. apply list_elem_of_lookup in Hin as [i Hi].
  apply find_first_with_id. exists i. repeat split; [done..|].
  intros j q Hj Hq. destruct (same_id q f) eqn:Hqf; [|done].
  assert (j = i); [|lia].
  apply (unique_ids_lookup l j i q p); try done.
  rewrite (same_id_sym p f) in Hid. eauto using same_id_trans.
Qed.

(** *** The first loop as a whole *)

Lemma snd_step_event_for l ui f :
  snd (onServerPokemon (l, ui) f) = ui ++ event_for l f.
Proof.
  unfold onServerPokemon, event_for.
  destruct (List.find _ l) as [p|]; [destruct (isEqual p f)|]; simpl;
    by rewrite ?app_nil_r.
Qed.

Lemma unique_ids_cons_inv f rest g :
  unique_ids (f :: rest) = true -> g ∈ rest -> same_id f g = false.
Proof.
  simpl. intros [Hf _]%andb_true_iff Hg. apply negb_true_iff in Hf.
  destruct (same_id f g) eqn:Hfg; [|done].
  assert (known_in rest f = true); [|congruence].
  apply known_in_spec. exists g. by rewrite same_id_sym.
Qed.

Lemma flat_map_agree {A B} (f g : A -> list B) (l : list A) :
  (forall x, x ∈ l -> f x = g x) -> flat_map f l = flat_map g l.
Proof.
  induction l as [|x rest IH]; intros Hfg; simpl; [done|].
  rewrite (Hfg x) by left. f_equal. apply IH. intros y Hy. apply Hfg. by right.
Qed.

(** With unique ids in the fetched data, every record is judged against
    the snapshot as it was when the loop started. *)
Lemma first_loop_event_for data l ui :
  unique_ids data = true -> coherent (l ++ data) ->
  snd (fold_left onServerPokemon data (l, ui)) = ui ++ flat_map (event_for l) data.
Proof.
  revert l ui. induction data as [|f rest IH]; intros l ui Hu Hco.
  - simpl. by rewrite app_nil_r.
  - rewrite first_loop_cons, IH;
      [|simpl in Hu; by apply andb_true_iff in Hu as [_ Hu] | by apply coherent_step].
    rewrite snd_step_event_for, <- app_assoc. cbn [flat_map]. do 2 f_equal.
    apply flat_map_agree. intros g Hg. unfold event_for.
    rewrite step_find_other; [done | by eapply coherent_app_l |].
    by eapply unique_ids_cons_inv.
Qed.

(** A slot whose id the fetched data does not carry is left alone. *)
Lemma step_slot_other l ui f i q :
  coherent l -> l !! i = Some q -> same_id f q = false ->
  fst (onServerPokemon (l, ui) f) !! i = Some q.
Proof.
  intros Hco Hi Hfq.
  destruct (step_cases l ui f Hco) as [j p (Hj & Hp & _) _ | |]; simpl.
  - rewrite list_lookup_insert_ne; [done|]. intros ->.
    rewrite Hi in Hj. injection Hj as ->. rewrite same_id_sym in Hp. congruence.
  - done.
  - by apply lookup_app_l_Some.
Qed.

Lemma first_loop_slot_other data l ui i q :
  coherent (l ++ data) -> l !! i = Some q -> known_in data q = false ->
  fst (fold_left onServerPokemon data (l, ui)) !! i = Some q.
Proof.
  revert l ui. induction data as [|f rest IH]; intros l ui Hco Hi Hq; [done|].
  simpl in Hq. apply orb_false_iff in Hq as [Hfq Hq].
  rewrite first_loop_cons. apply IH; [by apply coherent_step| |done].
  apply step_slot_other; [by eapply coherent_app_l | done..].
Qed.

(** A step for another id keeps the first record with the id of [f] where
    it is. *)
Lemma step_first_with_id l ui g f i p :
  coherent l -> same_id g f = false -> first_with_id l f i p ->
  first_with_id (fst (onServerPokemon (l, ui) g)) f i p.
Proof.
  intros Hco Hgf (Hi & Hp & Hfirst).
  assert (same_id g p = false) as Hgp.
  { rewrite (same_id_sym g p), (same_id_congr p f g) by done. by rewrite same_id_sym. }
  split; [by apply step_slot_other|]. split; [done|].
  intros j q Hj Hq.
  destruct (step_cases l ui g Hco) as [k x (Hk & Hx & _) _ | |]; simpl in Hq.
  - destruct (decide (k = j)) as [-> | Hne].
    + rewrite list_lookup_insert_eq in Hq by by eapply lookup_lt_Some.
      by injection Hq as <-.
    + rewrite list_lookup_insert_ne in Hq by done. by eapply Hfirst.
  - by eapply Hfirst.
  - apply (Hfirst j q Hj). rewrite lookup_app_l in Hq; [done|].
    apply lookup_lt_Some in Hi. lia.
Qed.

(** With unique ids in the fetched data, a fetched record that differs from
    the held record of its id ends up in that record's slot. *)
Lemma first_loop_update data l ui f i p :
  unique_ids data = true -> coherent (l ++ data) -> f ∈ data ->
  first_with_id l f i p -> isEqual p f = false ->
  fst (fold_left onServerPokemon data (l, ui)) !! i = Some f.
Proof.
  revert l ui. induction data as [|g rest IH]; intros l ui Hu Hco Hf Hfirst Hne.
  - by apply elem_of_nil in Hf.
  - pose proof (coherent_app_l _ _ Hco) as Hcol.
    pose proof Hu as Hu'. simpl in Hu'. apply andb_true_iff in Hu' as [Hg Hrest].
    apply negb_true_iff in Hg.
    rewrite first_loop_cons. apply elem_of_cons in Hf as [-> | Hf].
    + assert (coherent (fst (onServerPokemon (l, ui) g) ++ rest)) as Hco1
        by by apply coherent_step.
      rewrite (step_update l ui g i p) in * by done. simpl in *.
      apply first_loop_slot_other; [done| |done].
      apply list_lookup_insert_eq. destruct Hfirst as (Hi & _).
      by eapply lookup_lt_Some.
    + apply IH; [done | by apply coherent_step | done | | done].
      apply step_first_with_id; [done | by eapply unique_ids_cons_inv | done].
Qed.

(** And one that equals the held record of its id leaves it there. *)
Lemma first_loop_keep data l ui f i p :
  unique_ids data = true -> coherent (l ++ data) -> f ∈ data ->
  first_with_id l f i p -> isEqual p f = true ->
  fst (fold_left onServerPokemon data (l, ui)) !! i = Some p.
Proof.
  revert l ui. induction data as [|g rest IH]; intros l ui Hu Hco Hf Hfirst Heq.
  - by apply elem_of_nil in Hf.
  - pose proof (coherent_app_l _ _ Hco) as Hcol.
    pose proof Hu as Hu'. simpl in Hu'. apply andb_true_iff in Hu' as [Hg Hrest].
    apply negb_true_iff in Hg.
    rewrite first_loop_cons. apply elem_of_cons in Hf as [-> | Hf].
    + assert (coherent (fst (onServerPokemon (l, ui) g) ++ rest)) as Hco1
        by by apply coherent_step.
      assert (List.find (fun q => same_id q g) l = Some p) as Hfind
        by (apply find_first_with_id; eauto).
      rewrite (step_keep l ui g p) in * by done. simpl in *.
      destruct Hfirst as (Hi & Hp & _).
      apply first_loop_slot_other; [done..|].
      by rewrite (known_in_congr rest p g).
    + apply IH; [done | by apply coherent_step | done | | done].
      apply step_first_with_id; [done | by eapply unique_ids_cons_inv | done].
Qed.

Lemma step_length l ui f :
  length l <= length (fst (onServerPokemon (l, ui) f)).
Proof.
  unfold onServerPokemon.
  destruct (List.find _ l) as [p|]; [destruct (isEqual p f)|]; simpl.
  - done.
  - destruct (indexOf p l); simpl; [by rewrite length_insert | done].
  - rewrite length_app. lia.
Qed.

(** With unique ids in the fetched data, a fetched record whose id the
    snapshot does not hold is appended behind the records held so far. *)
Lemma first_loop_create data l ui f :
  unique_ids data = true -> coherent (l ++ data) -> f ∈ data ->
  List.find (fun q => same_id q f) l = None ->
  exists i, length l <= i /\
            fst (fold_left onServerPokemon data (l, ui)) !! i = Some f.
Proof.
  revert l ui. induction data as [|g rest IH]; intros l ui Hu Hco Hf Hnone.
  - by apply elem_of_nil in Hf.
  - pose proof (coherent_app_l _ _ Hco) as Hcol.
    pose proof Hu as Hu'. simpl in Hu'. apply andb_true_iff in Hu' as [Hg Hrest].
    apply negb_true_iff in Hg.
    assert (coherent (fst (onServerPokemon (l, ui) g) ++ rest)) as Hco1
      by by apply coherent_step.
    rewrite first_loop_cons. apply elem_of_cons in Hf as [-> | Hf].
    + exists (length l). split; [done|].
      rewrite (step_create l ui g) in * by done. simpl in *.
      apply first_loop_slot_other; [done| |done].
      by rewrite lookup_app_r, Nat.sub_diag.
    + destruct (IH (fst (onServerPokemon (l, ui) g)) (snd (onServerPokemon (l, ui) g)))
        as (i & Hi & Hlook); [done..| |].
      * rewrite step_find_other; [done..|]. by eapply unique_ids_cons_inv.
      * exists i. split; [|done]. pose proof (step_length l ui g). lia.
Qed.

(** *** [reconcile] as a whole *)

Lemma reconcile_bootstrap data :
  reconcile [] data = (data, Clear :: map Create data).
Proof. reflexivity. Qed.

(** The steady state: the first loop builds [merged], the second one names
    and drops the records of [merged] whose id the fetched data lacks. *)
Lemma reconcile_steady l data :
  l <> [] ->
  reconcile l data =
  let merged := fold_left onServerPokemon data (l, []) in
  (List.filter (known_in data) (fst merged),
   snd merged ++
   map Delete (List.filter (fun p => negb (known_in data p)) (fst merged))).
Proof.
  intros Hne. unfold reconcile.
  destruct l as [|p l]; [done|]. cbn [length Nat.eqb].
  destruct (fold_left onServerPokemon data (p :: l, [])) as [merged events].
  cbn [fst snd]. by rewrite delete_loop, delete_loop_self.
Qed.

Lemma filter_all {A} (keep : A -> bool) (l : list A) :
  (forall x, x ∈ l -> keep x = true) -> List.filter keep l = l.
Proof.
  induction l as [|x rest IH]; intros Hall; simpl; [done|].
  rewrite (Hall x) by left. f_equal. apply IH. intros y Hy. apply Hall. by right.
Qed.

Lemma filter_none {A} (keep : A -> bool) (l : list A) :
  (forall x, x ∈ l -> keep x = false) -> List.filter keep l = [].
Proof.
  induction l as [|x rest IH]; intros Hall; simpl; [done|].
  rewrite (Hall x) by left. apply IH. intros y Hy. apply Hall. by right.
Qed.

(** A snapshot in which the fetched data is settled and which holds no
    other id is a fixed point: nothing is issued, nothing changes. *)
Lemma reconcile_settled l data :
  l <> [] -> settled l data -> (forall p, p ∈ l -> known_in data p = true) ->
  reconcile l data = (l, []).
Proof.
  intros Hne Hs Hknown. rewrite reconcile_steady by done.
  rewrite settled_first_loop by done. cbn [fst snd app].
  rewrite filter_all by done. rewrite filter_none; [done|].
  intros p Hp. by rewrite Hknown.
Qed.

Lemma settled_filter l data :
  settled l data -> settled (List.filter (known_in data) l) data.
Proof.
  intros Hs f Hf. destruct (Hs f Hf) as (q & Hq & Heq). exists q. split; [|done].
  rewrite find_filter; [done|]. intros x Hx.
  apply known_in_spec. exists f. split; [done|]. by rewrite same_id_sym.
Qed.

Lemma distinct_refs_coherent l : NoDup (map rref l) -> coherent l.
Proof.
  intros Hnd p q Hp Hq Href.
  apply list_elem_of_lookup in Hp as [i Hi]. apply list_elem_of_lookup in Hq as [j Hj].
  assert (i = j) as ->; [|congruence].
  apply (NoDup_lookup (map rref l) i j (rref p)); [done|..].
  - by rewrite list_lookup_fmap, Hi.
  - by rewrite list_lookup_fmap, Hj, Href.
Qed.

(** *** The snapshot that [reconcile] leaves *)

Lemma first_loop_elem_of data l ui x :
  x ∈ fst (fold_left onServerPokemon data (l, ui)) -> x ∈ l ++ data.
Proof.
  revert l ui. induction data as [|f rest IH]; intros l ui Hx.
  - by rewrite app_nil_r.
  - rewrite first_loop_cons in Hx. apply IH in Hx. by eapply step_elem_of_app.
Qed.

Lemma settled_nonempty l f data : settled l (f :: data) -> l <> [].
Proof.
  intros Hs Hnil. destruct (Hs f) as (q & Hq & _); [left|]. by rewrite Hnil in Hq.
Qed.

(** After [reconcile P F] the fetched records are settled in the held
    snapshot, which holds no other id and nothing but records of [P] and
    [F]. *)
Lemma reconciled P F :
  unique_ids F = true -> coherent (P ++ F) ->
  settled (fst (reconcile P F)) F /\
  (forall p, p ∈ fst (reconcile P F) -> known_in F p = true) /\
  (forall p, p ∈ fst (reconcile P F) -> p ∈ P ++ F) /\
  (F = [] -> fst (reconcile P F) = []).
Proof.
  intros Hu Hco. destruct P as [|p0 P].
  - rewrite reconcile_bootstrap. cbn [fst]. split; [|split; [|split]]; [| |done..].
    + intros f Hf. exists f. split; [|apply isEqual_refl].
      apply unique_ids_find; [done.. | apply same_id_refl].
    + intros p Hp. apply known_in_spec. exists p. split; [done | apply same_id_refl].
  - rewrite (reconcile_steady (p0 :: P)) by done. cbn zeta. cbn [fst].
    split; [|split; [|split]].
    + by apply settled_filter, first_loop_settles.
    + intros p Hp. apply list_elem_of_In, filter_In in Hp. tauto.
    + intros p Hp. apply list_elem_of_In, filter_In in Hp as [Hp _].
      apply list_elem_of_In in Hp. by eapply first_loop_elem_of.
    + intros ->. by rewrite filter_none.
Qed.

Lemma reconcile_again P F :
  unique_ids F = true -> coherent (P ++ F) ->
  reconcile (fst (reconcile P F)) F =
  (fst (reconcile P F), match F with [] => [Clear] | _ :: _ => [] end).
Proof.
  intros Hu Hco. destruct (reconciled P F Hu Hco) as (Hs & Hknown & _ & Hnil).
  destruct F as [|f0 F]; [by rewrite Hnil|].
  apply reconcile_settled; [by eapply settled_nonempty | done..].
Qed.

Lemma Forall2_matches_r P F f :
  Forall2 matches P F -> f ∈ F -> exists p, p ∈ P /\ matches p f.
Proof.
  induction 1 as [|p g P F Hpg _ IH]; intros Hf.
  - by apply elem_of_nil in Hf.
  - apply elem_of_cons in Hf as [-> | Hf].
    + exists p. split; [left | done].
    + destruct (IH Hf) as (q & Hq & Hm). exists q. split; [by right | done].
Qed.

Lemma Forall2_matches_l P F p :
  Forall2 matches P F -> p ∈ P -> exists f, f ∈ F /\ matches p f.
Proof.
  induction 1 as [|q g P F Hqg _ IH]; intros Hp.
  - by apply elem_of_nil in Hp.
  - apply elem_of_cons in Hp as [-> | Hp].
    + exists g. split; [left | done].
    + destruct (IH Hp) as (f & Hf & Hm). exists f. split; [by right | done].
Qed.

(** *** A later parse of the same response *)

Lemma rref_refs p : rref p ∈ refs (to_value p).
Proof. left. Qed.

Lemma all_distinct_apart l i j x y :
  all_distinct l -> l !! i = Some x -> l !! j = Some y -> i <> j ->
  apart (to_value x) (to_value y).
Proof.
  unfold all_distinct. revert i j.
  induction l as [|z rest IH]; intros i j Hnd Hi Hj Hne; [by destruct i|].
  change (NoDup (refs (to_value z) ++ flat_map (fun p => refs (to_value p)) rest))
    in Hnd.
  apply NoDup_app in Hnd as (_ & Hz & Hnd).
  assert (forall k w, rest !! k = Some w -> forall r, r ∈ refs (to_value w) ->
            r ∈ flat_map (fun p => refs (to_value p)) rest) as Hin.
  { intros k w Hk r Hr. apply list_elem_of_In, in_flat_map. exists w.
    split; [by eapply list_elem_of_In, list_elem_of_lookup_2 | by apply list_elem_of_In]. }
  destruct i as [|i], j as [|j]; simpl in Hi, Hj; [done| | |].
  - injection Hi as ->. intros r Hr Hy. by eapply Hz, Hin.
  - injection Hj as ->. intros r Hr Hy. by eapply Hz, Hin.
  - apply (IH i j); [done..|lia].
Qed.

Lemma all_distinct_coherent l : all_distinct l -> coherent l.
Proof.
  intros Hd p q Hp Hq Href.
  apply list_elem_of_lookup in Hp as [i Hi]. apply list_elem_of_lookup in Hq as [j Hj].
  destruct (decide (i = j)) as [-> | Hne]; [congruence|].
  exfalso. apply (all_distinct_apart l i j p q Hd Hi Hj Hne (rref p)).
  - apply rref_refs.
  - rewrite Href. apply rref_refs.
Qed.

Lemma all_distinct_app_l l k : all_distinct (l ++ k) -> all_distinct l.
Proof. unfold all_distinct. rewrite flat_map_app. by intros (? & _)%NoDup_app. Qed.

(** A parsed entity and a record of equal content carry the same id. *)
Lemma equal_content_id_of f f' :
  parsed_entity f -> equal_content f f' -> id_of f' = id_of f.
Proof.
  intros [_ Hid] Heq. pose proof (erase_get _ _ "id" Heq) as Hget.
  by apply erase_not_composite in Hget.
Qed.

Lemma find_id_of l f f' :
  id_of f' = id_of f ->
  List.find (fun q => same_id q f') l = List.find (fun q => same_id q f) l.
Proof. intros Hid. unfold same_id. by rewrite Hid. Qed.

Lemma known_in_id_of F F' p :
  Forall2 (fun f f' => id_of f' = id_of f) F F' -> known_in F' p = known_in F p.
Proof.
  induction 1 as [|f f' F F' Hid _ IH]; simpl; [done|].
  rewrite IH. unfold same_id. by rewrite Hid.
Qed.

(** The held snapshot that [reconcile P F] leaves is settled for a later
    parse [F'] of the response [F] came from. *)
Lemma reconciled_later_parse P F F' :
  unique_ids F = true -> Forall parsed_entity F ->
  Forall2 equal_content F F' -> all_distinct (P ++ F ++ F') ->
  settled (fst (reconcile P F)) F' /\
  (forall p, p ∈ fst (reconcile P F) -> known_in F' p = true).
Proof.
  intros Hu Hparsed Hcopy Hd.
  assert (coherent (P ++ F)) as Hco.
  { apply all_distinct_coherent. rewrite app_assoc in Hd.
    by eapply all_distinct_app_l. }
  destruct (reconciled P F Hu Hco) as (Hs & Hknown & Hsub & _).
  assert (Forall2 (fun f f' => id_of f' = id_of f) F F') as Hids.
  { clear -Hparsed Hcopy. induction Hcopy as [|f f' F F' Hff' _ IH]; [constructor|].
    apply Forall_cons in Hparsed as [Hf Hparsed].
    constructor; [by apply equal_content_id_of | by apply IH]. }
  split; [|intros p Hp; rewrite (known_in_id_of F F') by done; by apply Hknown].
  intros f' Hf'. apply list_elem_of_lookup in Hf' as [k Hk].
  destruct (Forall2_lookup_r _ _ _ _ _ Hcopy Hk) as (f & Hf & Hff').
  assert (parsed_entity f) as Hpf.
  { rewrite Forall_forall in Hparsed. by eapply Hparsed, list_elem_of_lookup_2. }
  destruct (Hs f) as (q & Hq & Heq); [by eapply list_elem_of_lookup_2|].
  exists q. split; [by rewrite (find_id_of _ f f') by by apply equal_content_id_of|].
  apply find_elem_of in Hq as [Hq _]. apply Hsub, list_elem_of_lookup in Hq as [i Hi].
  assert (i < length (P ++ F)) as Hlen by by eapply lookup_lt_Some.
  assert ((P ++ F ++ F') !! i = Some q) as Hi'.
  { rewrite app_assoc. by apply lookup_app_l_Some. }
  assert ((P ++ F ++ F') !! (length P + k) = Some f) as Hfk.
  { rewrite lookup_app_r by lia. rewrite Nat.add_comm, Nat.add_sub.
    by apply lookup_app_l_Some. }
  assert ((P ++ F ++ F') !! (length (P ++ F) + k) = Some f') as Hfk'.
  { rewrite app_assoc, lookup_app_r by lia. by rewrite Nat.add_comm, Nat.add_sub. }
  unfold isEqual in *.
  destruct (decide (i = length P + k)) as [-> | Hne].
  - rewrite Hfk in Hi'. injection Hi' as <-. apply deepEqual_erase; [apply Hpf | done].
  - rewrite <- (deepEqual_apart (to_value q) (to_value f) (to_value f')); [done| | |done].
    + by eapply all_distinct_apart.
    + eapply all_distinct_apart; [done..|lia].
Qed.

(** A record of equal content carries the same id and is [isEqual]. *)
Lemma equal_content_matches p f :
  parsed_entity p -> equal_content p f -> matches p f.
Proof.
  intros [Hwf Hid] Heq. split.
  - unfold same_id. pose proof (erase_get _ _ "id" Heq) as Hget.
    apply erase_not_composite in Hget; [|exact Hid].
    unfold id_of at 2. rewrite Hget. apply strict_eq_refl.
  - by apply deepEqual_erase.
Qed.

Lemma Forall2_equal_content_matches P F :
  Forall parsed_entity P -> Forall2 equal_content P F -> Forall2 matches P F.
Proof.
  intros Hparsed Hall. induction Hall as [|p f P F Hpf _ IH]; [constructor|].
  apply Forall_cons in Hparsed as [Hp Hparsed].
  constructor; [by apply equal_content_matches | by apply IH].
Qed.

(** Closes [parsed_entity p] for a concrete record [p] without nesting. *)
Ltac parsed :=
  split; [apply wf_obj;
            [apply (bool_decide_unpack _); vm_compute; exact I | repeat constructor]
         | reflexivity].

(** Closes [coherent l] for a list [l] of records at distinct references. *)
Ltac distinct_refs :=
  apply distinct_refs_coherent; apply (bool_decide_unpack _); vm_compute; exact I.

End AppFacts.

(* ===================================================================== *)
(** ** Facts about the numbers of the server *)
(* ===================================================================== *)

Module ServerFacts.
Import Server.
Local Open Scope Z_scope.

(** Up to [2^53] in magnitude nothing is rounded. *)
Lemma round_double_exact z : Z.abs z <= 2 ^ 53 -> round_double z = z.
Proof.
  intros Hz. unfold round_double.
  destruct (Z.eq_dec (Z.abs z) (2 ^ 53)) as [Htop|Hbelow].
  - destruct (Z.abs_eq_or_opp z) as [Hs|Hs]; rewrite Hs in Htop.
    + subst z. reflexivity.
    + assert (z = - 2 ^ 53) as -> by lia. reflexivity.
  - assert (Z.max 0 (Z.log2 (Z.abs z) - 52) = 0) as ->.
    { destruct (Z.eq_dec (Z.abs z) 0) as [->|Hnz]; [reflexivity|].
      assert (Z.log2 (Z.abs z) < 53); [|lia].
      apply Z.log2_lt_pow2; lia. }
    cbn [Z.pow]. rewrite Z.div_1_r, Z.mod_1_r. cbn.
    rewrite Z.mul_1_r. clear. destruct z; reflexivity.
Qed.

(** Rounding keeps the sign: no sum is rounded to or across zero. *)
Lemma round_double_sgn z : Z.sgn (round_double z) = Z.sgn z.
Proof.
  unfold round_double.
  destruct (Z.eq_dec z 0) as [->|Hnz]; [reflexivity|].
  set (m := Z.abs z). set (ulp := 2 ^ Z.max 0 (Z.log2 m - 52)).
  assert (0 < m) as Hm by (subst m; lia).
  assert (0 < ulp) as Hulp by (apply Z.pow_pos_nonneg; lia).
  assert (ulp <= m) as Hle.
  { pose proof (Z.log2_spec m Hm) as [Hlow _]. pose proof (Z.log2_nonneg m).
    etransitivity; [|exact Hlow]. apply Z.pow_le_mono_r; lia. }
  assert (0 < m / ulp) as Hq by (apply Z.div_str_pos; lia).
  set (q' := if 2 * (m mod ulp) <? ulp then m / ulp
             else if ulp <? 2 * (m mod ulp) then m / ulp + 1
             else if Z.even (m / ulp) then m / ulp else m / ulp + 1).
  assert (0 < q') as Hq'.
  { subst q'.
    repeat match goal with |- context [if ?c then _ else _] => destruct c end; lia. }
  assert (0 < q' * ulp) by nia.
  destruct (Z.sgn_spec z) as [[? ->]|[[? ->]|[? ->]]]; [|lia|].
  - rewrite Z.mul_1_l. apply Z.sgn_pos. lia.
  - apply Z.sgn_neg. lia.
Qed.

Lemma round_double_neg z : z < 0 -> round_double z < 0.
Proof.
  intros Hz. pose proof (round_double_sgn z) as Hs.
  rewrite (Z.sgn_neg z Hz) in Hs. by apply Z.sgn_neg_iff.
Qed.

Lemma round_double_pos z : 0 < z -> 0 < round_double z.
Proof.
  intros Hz. pose proof (round_double_sgn z) as Hs.
  rewrite (Z.sgn_pos z Hz) in Hs. by apply Z.sgn_pos_iff.
Qed.

Lemma js_add_exact a b : Z.abs (a + b) <= 2 ^ 53 -> js_add a b = a + b.
Proof. apply round_double_exact. Qed.

(** The power level the route stores, where the sum is not rounded. *)
Lemma change_power_exact change p :
  Z.abs (powerLevel p + change) <= 2 ^ 53 ->
  powerLevel (change_power change p) = Z.max 0 (powerLevel p + change).
Proof.
  intros Hsum. cbn. rewrite js_add_exact by done.
  destruct (Z.ltb_spec (powerLevel p + change) 0); lia.
Qed.

End ServerFacts.

(* ===================================================================== *)
(** ** Properties of the reconciliation *)
(* ===================================================================== *)

Module AppProps.
Import Js JsFacts DeepCompare DeepCompareFacts App AppFacts.

Lemma operations_creates l : operations (map Create l) = map Create l.
Proof. unfold operations. induction l as [|p l IH]; simpl; congruence. Qed.

(** C1 (bootstrap).  With nothing held, [reconcile] makes the fetched
    snapshot the held one and issues, after clearing the page, exactly one
    [Create] per fetched record in the order of the snapshot; its operations
    are these [Create]s and nothing else. *)
Theorem bootstrap_creates_every_record (F : list record) :
  reconcile [] F = (F, Clear :: map Create F) /\
  operations (snd (reconcile [] F)) = map Create F.
Proof.
  split; [reflexivity|]. rewrite reconcile_bootstrap. apply operations_creates.
Qed.

(** C2 (update in place), for fetched snapshots with one record per id and
    the first held record of the id.  For one fetched record [f] and the
    record [p] that the lookup of its id finds in the held snapshot, which
    is the first one of that id: if [isEqual p f] fails, the step issues
    [Update f] and puts [f] at the position of [p]; if it holds, the step
    issues nothing and changes nothing.  Over a whole fetched snapshot with
    one record per id, run against a non-empty held snapshot, the events
    before the deletions are those of [event_for] judged against the
    snapshot held at the start, and the slot of [p] ends up holding [f], or
    still [p] when the two are equal.  On
    [[{id:1,powerLevel:10}]] against [[{id:1,powerLevel:11}]] the events are
    exactly [[Update {id:1,powerLevel:11}]] and the snapshot becomes
    [[{id:1,powerLevel:11}]]. *)
Theorem update_replaces_in_place :
  (forall l ui f p,
      coherent l -> List.find (fun q => same_id q f) l = Some p ->
      (isEqual p f = false ->
       exists i, first_with_id l f i p /\
                 onServerPokemon (l, ui) f = (<[i := f]> l, ui ++ [Update f])) /\
      (isEqual p f = true -> onServerPokemon (l, ui) f = (l, ui))) /\
  (forall P F f i p,
      P <> [] -> unique_ids F = true -> coherent (P ++ F) ->
      f ∈ F -> first_with_id P f i p ->
      let merged := fold_left onServerPokemon F (P, []) in
      (exists deleted,
          snd (reconcile P F) = flat_map (event_for P) F ++ map Delete deleted) /\
      (isEqual p f = false ->
       event_for P f = [Update f] /\ fst merged !! i = Some f) /\
      (isEqual p f = true ->
       event_for P f = [] /\ fst merged !! i = Some p)) /\
  reconcile [entity 1 1 10] [entity 2 1 11] = ([entity 2 1 11], [Update (entity 2 1 11)]).
Proof.
  split; [|split].
  - intros l ui f p Hco Hfind. split.
    + intros Hne. pose proof Hfind as Hfirst.
      apply find_first_with_id in Hfirst as [i Hi]. exists i.
      split; [done|]. by apply (step_update l ui f i p).
    + intros Heq. by apply (step_keep l ui f p).
  - intros P F f i p HP Hu Hco Hf Hfirst merged.
    assert (List.find (fun q => same_id q f) P = Some p) as Hfind
      by (apply find_first_with_id; eauto).
    split; [|split].
    + eexists. rewrite reconcile_steady by done. cbn zeta.
      by rewrite first_loop_event_for.
    + intros Hne. split.
      * unfold event_for. by rewrite Hfind, Hne.
      * by apply (first_loop_update F P [] f i p).
    + intros Heq. split.
      * unfold event_for. by rewrite Hfind, Heq.
      * by apply (first_loop_keep F P [] f i p).
  - vm_compute. reflexivity.
Qed.

Lemma update_replaces_in_place_witness :
  (coherent [entity 1 1 10] /\
   List.find (fun q => same_id q (entity 2 1 11)) [entity 1 1 10]
     = Some (entity 1 1 10) /\
   isEqual (entity 1 1 10) (entity 2 1 11) = false /\
   exists i, first_with_id [entity 1 1 10] (entity 2 1 11) i (entity 1 1 10) /\
             onServerPokemon ([entity 1 1 10], []) (entity 2 1 11) =
               (<[i := entity 2 1 11]> [entity 1 1 10],
                [] ++ [Update (entity 2 1 11)])) /\
  ([entity 1 1 10; entity 5 3 4] <> [] /\
   unique_ids [entity 2 1 11; entity 6 3 4] = true /\
   coherent ([entity 1 1 10; entity 5 3 4] ++ [entity 2 1 11; entity 6 3 4]) /\
   fst (fold_left onServerPokemon [entity 2 1 11; entity 6 3 4]
          ([entity 1 1 10; entity 5 3 4], [])) !! 0 = Some (entity 2 1 11) /\
   fst (fold_left onServerPokemon [entity 2 1 11; entity 6 3 4]
          ([entity 1 1 10; entity 5 3 4], [])) !! 1 = Some (entity 5 3 4)).
Proof.
  split.
  - assert (coherent [entity 1 1 10]) as Hco by distinct_refs.
    assert (List.find (fun q => same_id q (entity 2 1 11)) [entity 1 1 10]
            = Some (entity 1 1 10)) as Hfind by reflexivity.
    assert (isEqual (entity 1 1 10) (entity 2 1 11) = false) as Hne by reflexivity.
    split; [exact Hco|]. split; [exact Hfind|]. split; [exact Hne|].
    exact (proj1 (proj1 update_replaces_in_place [entity 1 1 10] []
                    (entity 2 1 11) (entity 1 1 10) Hco Hfind) Hne).
  - assert ([entity 1 1 10; entity 5 3 4] <> []) as HP by discriminate.
    assert (unique_ids [entity 2 1 11; entity 6 3 4] = true) as Hu by reflexivity.
    assert (coherent ([entity 1 1 10; entity 5 3 4] ++ [entity 2 1 11; entity 6 3 4]))
      as Hco by distinct_refs.
    assert (forall f i p, f ∈ [entity 2 1 11; entity 6 3 4] ->
              same_id p f = true -> [entity 1 1 10; entity 5 3 4] !! i = Some p ->
              (forall j q, j < i -> [entity 1 1 10; entity 5 3 4] !! j = Some q ->
                           same_id q f = false) ->
              first_with_id [entity 1 1 10; entity 5 3 4] f i p) as Hfirst
      by (intros; repeat split; assumption).
    split; [exact HP|]. split; [exact Hu|]. split; [exact Hco|]. split.
    + destruct (proj1 (proj2 update_replaces_in_place)
                  [entity 1 1 10; entity 5 3 4] [entity 2 1 11; entity 6 3 4]
                  (entity 2 1 11) 0 (entity 1 1 10) HP Hu Hco) as (_ & Hupd & _).
      * left.
      * apply Hfirst; [left | reflexivity | reflexivity | intros; lia].
      * apply Hupd. reflexivity.
    + destruct (proj1 (proj2 update_replaces_in_place)
                  [entity 1 1 10; entity 5 3 4] [entity 2 1 11; entity 6 3 4]
                  (entity 6 3 4) 1 (entity 5 3 4) HP Hu Hco) as (_ & _ & Hkeep).
      * right. left.
      * apply Hfirst; [right; left | reflexivity | reflexivity |].
        intros [|j] q Hj Hq; [|lia]. by injection Hq as <-.
      * apply Hkeep. reflexivity.
Defined.

(** The claim of the update, made for every held and every fetched
    snapshot, fails once an id repeats.  In the fetched snapshot: the second
    fetched record of id 1 is equal to the held one, yet it gets an
    [Update], the first one having taken the slot before.  In the held
    snapshot ([twins]): the fetched record is equal to the second held
    record of id 1, yet it gets an [Update] and lands in the slot of the
    first. *)
Lemma repeated_id_breaks_update :
  ([entity 1 1 10] <> [] /\
   unique_ids [entity 2 1 11; entity 3 1 10] = false /\
   entity 3 1 10 ∈ [entity 2 1 11; entity 3 1 10] /\
   entity 1 1 10 ∈ [entity 1 1 10] /\
   same_id (entity 1 1 10) (entity 3 1 10) = true /\
   isEqual (entity 1 1 10) (entity 3 1 10) = true /\
   reconcile [entity 1 1 10] [entity 2 1 11; entity 3 1 10]
     = ([entity 3 1 10], [Update (entity 2 1 11); Update (entity 3 1 10)])) /\
  (twins <> [] /\
   unique_ids twins = false /\
   twins !! 1 = Some (entity 2 1 11) /\
   same_id (entity 2 1 11) (entity 3 1 11) = true /\
   isEqual (entity 2 1 11) (entity 3 1 11) = true /\
   reconcile twins [entity 3 1 11]
     = ([entity 3 1 11; entity 2 1 11], [Update (entity 3 1 11)])).
Proof.
  split.
  - split; [discriminate|]. split; [reflexivity|].
    split; [right; left|]. split; [left|].
    split; [reflexivity|]. split; [reflexivity|]. vm_compute. reflexivity.
  - split; [discriminate|]. split; [reflexivity|]. split; [reflexivity|].
    split; [reflexivity|]. split; [reflexivity|]. vm_compute. reflexivity.
Qed.

(** C3 (delete pass).  Against a non-empty held snapshot, [reconcile] first
    runs the loop over the fetched records, which issues [Create]s and
    [Update]s only; then every record of the snapshot so merged whose id the
    fetched data lacks gets one [Delete], in the order of the snapshot and
    behind all the other events, and the held snapshot keeps the remaining
    records.  With one record held and nothing fetched the events are
    exactly the [Delete] of that record and the snapshot becomes empty. *)
Theorem delete_pass_removes_absent (p0 : record) (P F : list record) :
  (let merged := fold_left onServerPokemon F (p0 :: P, []) in
   reconcile (p0 :: P) F =
     (List.filter (known_in F) (fst merged),
      snd merged ++
      map Delete (List.filter (fun p => negb (known_in F p)) (fst merged))) /\
   forallb is_upsert (snd merged) = true) /\
  reconcile [p0] [] = ([], [Delete p0]).
Proof.
  split; [split|].
  - by apply reconcile_steady.
  - destruct (first_loop_events F (p0 :: P) []) as (events & -> & Hup). done.
  - unfold reconcile. cbn -[same_id]. by rewrite same_id_refl.
Qed.

(** C4 (create in the steady state), for fetched snapshots with one record
    per id.  A fetched record [f] whose id the lookup does not find in the
    held snapshot is appended to the snapshot and gets [Create f].  Over a
    whole fetched snapshot with one record per id, run against a non-empty
    held snapshot, the events before the deletions are those of
    [event_for] judged against the snapshot held at the start, which for
    such an [f] is the single [Create f]; [f] is
    appended behind the records held at the start and is held when
    [reconcile] returns.  On [[{id:1,..}]] against
    [[{id:1,.. same values}; {id:2,..}]] the events are exactly
    [[Create {id:2,..}]]. *)
Theorem create_appends_unknown :
  (forall l ui f,
      List.find (fun q => same_id q f) l = None ->
      onServerPokemon (l, ui) f = (l ++ [f], ui ++ [Create f])) /\
  (forall P F f,
      P <> [] -> unique_ids F = true -> coherent (P ++ F) ->
      f ∈ F -> List.find (fun q => same_id q f) P = None ->
      let merged := fold_left onServerPokemon F (P, []) in
      (exists deleted,
          snd (reconcile P F) = flat_map (event_for P) F ++ map Delete deleted) /\
      event_for P f = [Create f] /\
      (exists i, length P <= i /\ fst merged !! i = Some f) /\
      f ∈ fst (reconcile P F)) /\
  reconcile [entity 1 1 10] [entity 2 1 10; entity 3 2 7] =
    ([entity 1 1 10; entity 3 2 7], [Create (entity 3 2 7)]).
Proof.
  split; [|split].
  - intros l ui f. apply step_create.
  - intros P F f HP Hu Hco Hf Hnone merged.
    destruct (first_loop_create F P [] f Hu Hco Hf Hnone) as (i & Hi & Hlook).
    split; [|split; [|split]].
    + eexists. rewrite reconcile_steady by done. cbn zeta.
      by rewrite first_loop_event_for.
    + unfold event_for. by rewrite Hnone.
    + by exists i.
    + rewrite reconcile_steady by done. cbn [fst].
      apply list_elem_of_In, filter_In. split.
      * apply list_elem_of_In. by eapply list_elem_of_lookup_2.
      * apply known_in_spec. exists f. split; [done | apply same_id_refl].
  - vm_compute. reflexivity.
Qed.

Lemma create_appends_unknown_witness :
  (List.find (fun q => same_id q (entity 3 2 7)) [entity 1 1 10] = None /\
   onServerPokemon ([entity 1 1 10], []) (entity 3 2 7) =
     ([entity 1 1 10] ++ [entity 3 2 7], [] ++ [Create (entity 3 2 7)])) /\
  ([entity 1 1 10] <> [] /\
   unique_ids [entity 2 1 10; entity 3 2 7] = true /\
   coherent ([entity 1 1 10] ++ [entity 2 1 10; entity 3 2 7]) /\
   event_for [entity 1 1 10] (entity 3 2 7) = [Create (entity 3 2 7)] /\
   entity 3 2 7 ∈ fst (reconcile [entity 1 1 10] [entity 2 1 10; entity 3 2 7])).
Proof.
  split.
  - assert (List.find (fun q => same_id q (entity 3 2 7)) [entity 1 1 10] = None)
      as Hnone by reflexivity.
    split; [exact Hnone|].
    exact (proj1 create_appends_unknown [entity 1 1 10] [] (entity 3 2 7) Hnone).
  - assert ([entity 1 1 10] <> []) as HP by discriminate.
    assert (unique_ids [entity 2 1 10; entity 3 2 7] = true) as Hu by reflexivity.
    assert (coherent ([entity 1 1 10] ++ [entity 2 1 10; entity 3 2 7])) as Hco
      by distinct_refs.
    split; [exact HP|]. split; [exact Hu|]. split; [exact Hco|].
    destruct (proj1 (proj2 create_appends_unknown)
                [entity 1 1 10] [entity 2 1 10; entity 3 2 7] (entity 3 2 7)
                HP Hu Hco) as (_ & Hev & _ & Hin).
    + right. left.
    + reflexivity.
    + split; [exact Hev | exact Hin].
Defined.

(** The claim of the creation, made for every fetched snapshot, fails once
    an id repeats in it: neither fetched record of id 2 has its id in the
    held snapshot, yet only the first one gets a [Create]; the second gets
    an [Update] and takes the slot of the first, which is not held
    afterwards. *)
Lemma repeated_id_breaks_create :
  [entity 1 1 10] <> [] /\
  unique_ids [entity 4 1 10; entity 2 2 5; entity 3 2 6] = false /\
  entity 3 2 6 ∈ [entity 4 1 10; entity 2 2 5; entity 3 2 6] /\
  known_in [entity 1 1 10] (entity 3 2 6) = false /\
  known_in [entity 1 1 10] (entity 2 2 5) = false /\
  reconcile [entity 1 1 10] [entity 4 1 10; entity 2 2 5; entity 3 2 6]
    = ([entity 1 1 10; entity 3 2 6],
       [Create (entity 2 2 5); Update (entity 3 2 6)]).
Proof.
  split; [discriminate|]. split; [reflexivity|].
  split; [right; right; left|]. split; [reflexivity|]. split; [reflexivity|].
  vm_compute. reflexivity.
Qed.

(** C5 (idempotence), for fetched snapshots with one record per id.  When
    the fetched snapshot [F] holds at most one record per id, reconciling
    again after [reconcile P F] leaves the held snapshot as it is and issues
    no operation, be it with [F] itself or with a later parse [F'] of the
    same content, made of new objects; and when a non-empty held snapshot
    [P] of parsed entities with one record per id is equal in content to
    [F], whatever the order and whichever objects [F] is made of,
    [reconcile P F] changes nothing and issues nothing.  ([coherent] says
    that a reference denotes one object, [all_distinct] that the records
    share no object.) *)
Theorem reconcile_idempotent_unique_ids :
  (forall P F,
      unique_ids F = true -> coherent (P ++ F) ->
      fst (reconcile (fst (reconcile P F)) F) = fst (reconcile P F) /\
      operations (snd (reconcile (fst (reconcile P F)) F)) = []) /\
  (forall P F F',
      unique_ids F = true -> Forall parsed_entity F ->
      Forall2 equal_content F F' -> all_distinct (P ++ F ++ F') ->
      fst (reconcile (fst (reconcile P F)) F') = fst (reconcile P F) /\
      operations (snd (reconcile (fst (reconcile P F)) F')) = []) /\
  (forall P F,
      P <> [] -> unique_ids P = true -> Forall parsed_entity P ->
      same_content P F ->
      reconcile P F = (P, [])).
Proof.
  split; [|split].
  - intros P F Hu Hco. rewrite reconcile_again by done. cbn [fst snd].
    split; [done|]. by destruct F.
  - intros P F F' Hu Hparsed Hcopy Hd.
    destruct (reconciled_later_parse P F F' Hu Hparsed Hcopy Hd) as [Hs Hknown].
    destruct F' as [|f' F'].
    + apply Forall2_nil_inv_r in Hcopy. subst F.
      assert (coherent (P ++ [])) as Hco.
      { apply all_distinct_coherent. rewrite app_assoc in Hd.
        by eapply all_distinct_app_l. }
      destruct (reconciled P [] Hu Hco) as (_ & _ & _ & ->); done.
    + rewrite reconcile_settled; [done| |done..]. by eapply settled_nonempty.
  - intros P F HP Hu Hparsed (P' & Hperm & Hall).
    apply Forall2_equal_content_matches in Hall; [|by rewrite Hperm].
    apply reconcile_settled; [done| |].
    + intros f Hf. destruct (Forall2_matches_r P' F f Hall Hf) as (p & Hp & Hid & Heq).
      exists p. split; [|done]. apply unique_ids_find; [done| |done].
      by rewrite <- Hperm.
    + intros p Hp. rewrite <- Hperm in Hp.
      destruct (Forall2_matches_l P' F p Hall Hp) as (f & Hf & Hid & _).
      apply known_in_spec. exists f. split; [done|]. by rewrite same_id_sym.
Qed.

Lemma reconcile_idempotent_unique_ids_witness :
  (unique_ids [entity 3 1 11; entity 4 3 30] = true /\
   coherent ([entity 1 1 10; entity 2 2 20] ++ [entity 3 1 11; entity 4 3 30]) /\
   fst (reconcile (fst (reconcile [entity 1 1 10; entity 2 2 20]
                                  [entity 3 1 11; entity 4 3 30]))
                  [entity 3 1 11; entity 4 3 30])
     = fst (reconcile [entity 1 1 10; entity 2 2 20] [entity 3 1 11; entity 4 3 30]) /\
   operations
     (snd (reconcile (fst (reconcile [entity 1 1 10; entity 2 2 20]
                                     [entity 3 1 11; entity 4 3 30]))
                     [entity 3 1 11; entity 4 3 30])) = []) /\
  (Forall parsed_entity [entity 3 1 11; entity 4 3 30] /\
   Forall2 equal_content [entity 3 1 11; entity 4 3 30] [entity 5 1 11; entity 6 3 30] /\
   all_distinct ([entity 1 1 10; entity 2 2 20] ++ [entity 3 1 11; entity 4 3 30]
                 ++ [entity 5 1 11; entity 6 3 30]) /\
   operations
     (snd (reconcile (fst (reconcile [entity 1 1 10; entity 2 2 20]
                                     [entity 3 1 11; entity 4 3 30]))
                     [entity 5 1 11; entity 6 3 30])) = []) /\
  ([entity 1 1 10; entity 2 2 20] <> [] /\
   unique_ids [entity 1 1 10; entity 2 2 20] = true /\
   Forall parsed_entity [entity 1 1 10; entity 2 2 20] /\
   same_content [entity 1 1 10; entity 2 2 20] [entity 4 2 20; entity 3 1 10] /\
   reconcile [entity 1 1 10; entity 2 2 20] [entity 4 2 20; entity 3 1 10]
     = ([entity 1 1 10; entity 2 2 20], [])).
Proof.
  assert (unique_ids [entity 3 1 11; entity 4 3 30] = true) as HF by reflexivity.
  split; [|split].
  - assert (coherent ([entity 1 1 10; entity 2 2 20] ++ [entity 3 1 11; entity 4 3 30]))
      as Hco by distinct_refs.
    split; [exact HF|]. split; [exact Hco|].
    exact (proj1 reconcile_idempotent_unique_ids _ _ HF Hco).
  - assert (Forall parsed_entity [entity 3 1 11; entity 4 3 30]) as Hparsed
      by (repeat (apply Forall_cons_2; [parsed|]); apply Forall_nil_2).
    assert (Forall2 equal_content [entity 3 1 11; entity 4 3 30]
                                  [entity 5 1 11; entity 6 3 30]) as Hcopy
      by (repeat constructor).
    assert (all_distinct ([entity 1 1 10; entity 2 2 20] ++ [entity 3 1 11; entity 4 3 30]
                          ++ [entity 5 1 11; entity 6 3 30])) as Hd
      by (apply (bool_decide_unpack _); vm_compute; exact I).
    split; [exact Hparsed|]. split; [exact Hcopy|]. split; [exact Hd|].
    exact (proj2 (proj1 (proj2 reconcile_idempotent_unique_ids) _ _ _
                    HF Hparsed Hcopy Hd)).
  - assert ([entity 1 1 10; entity 2 2 20] <> []) as HP by discriminate.
    assert (unique_ids [entity 1 1 10; entity 2 2 20] = true) as Hu by reflexivity.
    assert (same_content [entity 1 1 10; entity 2 2 20] [entity 4 2 20; entity 3 1 10])
      as Hsame.
    { exists [entity 2 2 20; entity 1 1 10]. split; [apply perm_swap|].
      repeat constructor. }
    assert (Forall parsed_entity [entity 1 1 10; entity 2 2 20]) as Hparsed
      by (repeat (apply Forall_cons_2; [parsed|]); apply Forall_nil_2).
    split; [exact HP|]. split; [exact Hu|]. split; [exact Hparsed|].
    split; [exact Hsame|].
    exact (proj2 (proj2 reconcile_idempotent_unique_ids) _ _ HP Hu Hparsed Hsame).
Defined.

(** C10 (ids stay unique).  When the held snapshot and the fetched one each
    hold at most one record per id, so does the held snapshot after
    [reconcile], and so after every call of [fetchPokemons], failed or not:
    an update keeps the id of its slot, a record is appended only under an
    id not held yet, and the second loop only removes.  The hypothesis
    [coherent] says that a reference denotes one object, so that [indexOf]
    lands on the slot [find] returned. *)
Theorem reconcile_keeps_ids_unique :
  (forall P F,
      unique_ids P = true -> unique_ids F = true -> coherent (P ++ F) ->
      unique_ids (fst (reconcile P F)) = true) /\
  (forall answer s,
      unique_ids (localPokemons s) = true -> unique_ids (fetched answer) = true ->
      coherent (localPokemons s ++ fetched answer) ->
      unique_ids (localPokemons (fetchPokemons answer s)) = true).
Proof.
  assert (forall P F,
            unique_ids P = true -> unique_ids F = true -> coherent (P ++ F) ->
            unique_ids (fst (reconcile P F)) = true) as Hrec.
  { intros P F HP HF Hco. destruct P as [|p0 P]; [done|].
    rewrite reconcile_steady by done. cbn zeta. cbn [fst].
    by apply unique_ids_filter, unique_ids_first_loop. }
  split; [exact Hrec|].
  intros answer s Hs Hf Hco. destruct answer as [|status [|data]]; simpl; [done| |].
  - by destruct (ok status).
  - destruct (ok status); simpl; [|done].
    specialize (Hrec (localPokemons s) data Hs Hf Hco).
    by destruct (reconcile (localPokemons s) data).
Qed.

Lemma reconcile_keeps_ids_unique_witness :
  unique_ids [entity 1 1 10; entity 2 2 20] = true /\
  unique_ids [entity 3 1 11; entity 4 3 30] = true /\
  coherent ([entity 1 1 10; entity 2 2 20] ++ [entity 3 1 11; entity 4 3 30]) /\
  unique_ids (fst (reconcile [entity 1 1 10; entity 2 2 20]
                             [entity 3 1 11; entity 4 3 30])) = true.
Proof.
  assert (unique_ids [entity 1 1 10; entity 2 2 20] = true) as HP by reflexivity.
  assert (unique_ids [entity 3 1 11; entity 4 3 30] = true) as HF by reflexivity.
  assert (coherent ([entity 1 1 10; entity 2 2 20] ++ [entity 3 1 11; entity 4 3 30]))
    as Hco by distinct_refs.
  split; [exact HP|]. split; [exact HF|]. split; [exact Hco|].
  exact (proj1 reconcile_keeps_ids_unique _ _ HP HF Hco).
Defined.

(** The claim of idempotence fails once an id repeats in the fetched
    snapshot: after the bootstrap with [twins], reconciling [twins] again
    issues an [Update]; and [twins_again], equal in content to the held
    [twins], is not left without operations either. *)
Lemma repeated_id_breaks_idempotence :
  unique_ids twins = false /\
  operations (snd (reconcile (fst (reconcile [] twins)) twins))
    = [Update (entity 2 1 11)] /\
  (twins <> [] /\ same_content twins twins_again /\
   operations (snd (reconcile twins twins_again)) = [Update (entity 4 1 11)]).
Proof.
  split; [reflexivity|].
  split; [vm_compute; reflexivity|]. split; [discriminate|].
  split; [|vm_compute; reflexivity].
  exists twins. split; [done|]. repeat constructor.
Qed.

Lemma failed_fetch answer s :
  failed answer = true -> exists e, fetchPokemons answer s = console_error e s.
Proof.
  destruct answer as [|status body]; simpl; [by eexists|].
  destruct (ok status); simpl; [|by eexists].
  destruct body; [by eexists | discriminate].
Qed.

(** The console plays no part in what a call does to the snapshot and to
    the page. *)
Lemma fetch_console_irrelevant answer s s' :
  localPokemons s = localPokemons s' -> page s = page s' ->
  localPokemons (fetchPokemons answer s) = localPokemons (fetchPokemons answer s') /\
  page (fetchPokemons answer s) = page (fetchPokemons answer s').
Proof.
  intros Hl Hp. destruct answer as [|status body]; simpl; [done|].
  destruct (ok status); simpl; [|done].
  destruct body as [|data]; simpl; [done|]. rewrite Hl, Hp.
  by destruct (reconcile (localPokemons s') data).
Qed.

Lemma poll_console_irrelevant answers s s' :
  localPokemons s = localPokemons s' -> page s = page s' ->
  localPokemons (poll answers s) = localPokemons (poll answers s') /\
  page (poll answers s) = page (poll answers s').
Proof.
  revert s s'. induction answers as [|a rest IH]; intros s s' Hl Hp; [done|].
  simpl. apply IH; by apply fetch_console_irrelevant.
Qed.

(** C8 (a failed fetch changes nothing).  When the fetch is rejected or
    answers with a status outside 200-299 (or a body that does not parse),
    the call leaves the held snapshot and the page as they were and writes
    one error to the console; the calls of the following ticks then act on
    the snapshot and the page as if the failed call had not been made. *)
Theorem failed_fetch_keeps_snapshot (answer : fetch_result) (s : state) :
  failed answer = true ->
  localPokemons (fetchPokemons answer s) = localPokemons s /\
  page (fetchPokemons answer s) = page s /\
  (exists e, console (fetchPokemons answer s) = console s ++ [e]) /\
  (forall later,
      localPokemons (poll (answer :: later) s) = localPokemons (poll later s) /\
      page (poll (answer :: later) s) = page (poll later s)).
Proof.
  intros Hfail. destruct (failed_fetch answer s Hfail) as [e He].
  rewrite He. repeat split; [by exists e|..];
    cbn [poll fold_left]; rewrite He; by apply poll_console_irrelevant.
Qed.

Lemma failed_fetch_keeps_snapshot_witness :
  failed (FetchResponse 503 (JsonArray [entity 9 9 9])) = true /\
  localPokemons
    (fetchPokemons (FetchResponse 503 (JsonArray [entity 9 9 9]))
       {| localPokemons := [entity 1 1 10]; page := [Create (entity 1 1 10)];
          console := [] |})
    = [entity 1 1 10].
Proof.
  assert (failed (FetchResponse 503 (JsonArray [entity 9 9 9])) = true) as Hfail
    by reflexivity.
  split; [exact Hfail|].
  exact (proj1 (failed_fetch_keeps_snapshot
                  (FetchResponse 503 (JsonArray [entity 9 9 9]))
                  {| localPokemons := [entity 1 1 10];
                     page := [Create (entity 1 1 10)]; console := [] |} Hfail)).
Defined.

End AppProps.

(* ===================================================================== *)
(** ** Properties of [deepEqual] *)
(* ===================================================================== *)

Module DeepCompareProps.
Import Js JsFacts DeepCompare DeepCompareFacts.

Lemma deepEqual_refl v : deepEqual v v = true.
Proof. by rewrite deepEqual_eq, strict_eq_refl. Qed.

(** C6 (composite equality).  For two composites, each holding one value
    per key, [deepEqual] is true exactly when they have the same set of
    keys and [deepEqual] is true of the two values under every key; a
    different number of keys alone makes it false.  So
    [{a:1,b:{c:2}}] equals its copy, [{a:1}] differs from [{a:1,b:2}], and
    the array under [a] in [{a:[1,2]}] is compared element by element, its
    indices being its keys. *)
Theorem composite_equality :
  (forall a b,
      is_composite a = true -> is_composite b = true ->
      distinct_keys a -> distinct_keys b ->
      (strict_eq a b = true -> a = b) ->
      (deepEqual a b = true <->
       (forall key, key ∈ keys a <-> key ∈ keys b) /\
       (forall key, key ∈ keys a -> deepEqual (get a key) (get b key) = true)) /\
      (length (keys a) <> length (keys b) -> deepEqual a b = false)) /\
  deepEqual (VObj 1 [("a", VNum 1); ("b", VObj 2 [("c", VNum 2)])])
            (VObj 3 [("a", VNum 1); ("b", VObj 4 [("c", VNum 2)])]) = true /\
  deepEqual (VObj 1 [("a", VNum 1)])
            (VObj 2 [("a", VNum 1); ("b", VNum 2)]) = false /\
  deepEqual (VObj 1 [("a", VArr 2 [VNum 1; VNum 2])])
            (VObj 3 [("a", VArr 4 [VNum 1; VNum 2])]) = true /\
  deepEqual (VObj 1 [("a", VArr 2 [VNum 1; VNum 2])])
            (VObj 3 [("a", VArr 4 [VNum 1; VNum 3])]) = false.
Proof.
  split; [|repeat split; vm_compute; reflexivity].
  intros a b Ha Hb Hka Hkb Hsame.
  rewrite (deepEqual_composite a b Ha Hb Hka).
  destruct (strict_eq a b) eqn:Hse.
  - rewrite (Hsame eq_refl). simpl. split; [|congruence].
    split; [intros _|done]. split; [done|]. intros key _. apply deepEqual_refl.
  - simpl. split.
    + rewrite andb_true_iff, Nat.eqb_eq, keys_agree_spec.
      rewrite <- (same_keys_iff (keys a) (keys b) Hka Hkb).
      split.
      * intros [Hlen Hall]. split; [split; [done|]|]; intros key Hkey; by apply Hall.
      * intros [[Hlen Hsub] Hall]. split; [done|]. intros key Hkey. split; auto.
    + intros Hlen. apply Nat.eqb_neq in Hlen. by rewrite Hlen.
Qed.

Lemma composite_equality_witness :
  is_composite nested = true /\ is_composite nested_copy = true /\
  distinct_keys nested /\ distinct_keys nested_copy /\
  (strict_eq nested nested_copy = true -> nested = nested_copy) /\
  (deepEqual nested nested_copy = true <->
   (forall key, key ∈ keys nested <-> key ∈ keys nested_copy) /\
   (forall key, key ∈ keys nested ->
                deepEqual (get nested key) (get nested_copy key) = true)).
Proof.
  pose (a := nested). pose (b := nested_copy). change nested with a.
  change nested_copy with b.
  assert (is_composite a = true) as Ha by reflexivity.
  assert (is_composite b = true) as Hb by reflexivity.
  assert (distinct_keys a) as Hka by (apply (bool_decide_unpack _); vm_compute; exact I).
  assert (distinct_keys b) as Hkb by (apply (bool_decide_unpack _); vm_compute; exact I).
  assert (strict_eq a b = true -> a = b) as Hsame by (intros H; discriminate H).
  split; [exact Ha|]. split; [exact Hb|]. split; [exact Hka|]. split; [exact Hkb|].
  split; [exact Hsame|].
  exact (proj1 (proj1 composite_equality a b Ha Hb Hka Hkb Hsame)).
Defined.

(** C7 (primitives and [null]).  When one of the two values is not a
    composite (it is a primitive, [undefined] or [null]), [deepEqual] is
    [===]: it is true exactly when the two values are the same, and no value
    is converted to another type.  So [null] differs from [{}], [5] equals
    [5], and [5] differs from ["5"], [null] from [undefined], [0] from
    [false]. *)
Theorem primitive_equality_is_strict :
  (forall a b,
      is_composite a = false \/ is_composite b = false ->
      deepEqual a b = strict_eq a b /\ (deepEqual a b = true <-> a = b)) /\
  (forall r, deepEqual VNull (VObj r []) = false) /\
  deepEqual (VNum 5) (VNum 5) = true /\
  deepEqual (VNum 5) (VStr "5") = false /\
  deepEqual VNull VUndefined = false /\
  deepEqual (VNum 0) (VBool false) = false.
Proof.
  split; [|repeat split].
  intros a b Hc. rewrite (deepEqual_not_composite a b Hc).
  split; [done | by apply strict_eq_prim].
Qed.

Lemma primitive_equality_is_strict_witness :
  (is_composite (VNum 5) = false \/ is_composite (VObj 1 []) = false) /\
  deepEqual (VNum 5) (VObj 1 []) = strict_eq (VNum 5) (VObj 1 []).
Proof.
  assert (is_composite (VNum 5) = false \/ is_composite (VObj 1 []) = false) as Hc
    by (left; reflexivity).
  split; [exact Hc|].
  exact (proj1 (proj1 primitive_equality_is_strict (VNum 5) (VObj 1 []) Hc)).
Defined.

End DeepCompareProps.

(* ===================================================================== *)
(** ** Properties of the power route *)
(* ===================================================================== *)

Module ServerProps.
Import Server ServerFacts.







End ServerProps.

(* ===================================================================== *)
(** ** Further properties of [deepEqual] *)
(* ===================================================================== *)

Module DeepCompareLaws.
Import Js JsFacts DeepCompare DeepCompareFacts.

(** Induction over a value through its entries. *)
Lemma own_props_ind (P : value -> Prop) :
  (forall a, (forall key v, (key, v) ∈ own_props a -> P v) -> P a) ->
  forall a, P a.
Proof.
  intros Hstep.
  induction a as [| | | | |r elems IH|r props IH] using value_ind;
    apply Hstep; simpl; try (intros key v Hin; by apply elem_of_nil in Hin).
  - intros key v Hin. apply list_elem_of_lookup in Hin as [i Hi].
    rewrite list_lookup_imap in Hi.
    destruct (elems !! i) as [x|] eqn:Hx; [|discriminate]. injection Hi as _ <-.
    rewrite Forall_forall in IH. apply IH. by eapply list_elem_of_lookup_2.
  - intros key v Hin. rewrite Forall_forall in IH. by apply (IH (key, v)).
Qed.

Lemma well_formed_distinct_keys a : well_formed a -> distinct_keys a.
Proof.
  destruct 1; try apply NoDup_nil_2; [apply distinct_keys_arr | done].
Qed.

Lemma well_formed_entry a key v :
  well_formed a -> (key, v) ∈ own_props a -> well_formed v.
Proof.
  destruct 1 as [| | | | |r elems Hall|r props _ Hall]; simpl; intros Hin;
    try by apply elem_of_nil in Hin.
  - apply list_elem_of_lookup in Hin as [i Hi]. rewrite list_lookup_imap in Hi.
    destruct (elems !! i) as [x|] eqn:Hx; [|discriminate]. injection Hi as _ <-.
    rewrite Forall_forall in Hall. by eapply Hall, list_elem_of_lookup_2.
  - rewrite Forall_forall in Hall. by apply (Hall (key, v)).
Qed.

Lemma well_formed_get a key : well_formed a -> well_formed (get a key).
Proof.
  intros Hwf. unfold get. destruct (assoc key (own_props a)) as [x|] eqn:Hx.
  - apply (well_formed_entry a key x Hwf). by apply assoc_Some_elem.
  - constructor.
Qed.

Lemma keys_agree_sym a b :
  distinct_keys a -> distinct_keys b -> length (keys a) = length (keys b) ->
  (forall key, key ∈ keys a ->
     deepEqual (get a key) (get b key) = deepEqual (get b key) (get a key)) ->
  keys_agree a b = keys_agree b a.
Proof.
  intros Hka Hkb Hlen Hsym. apply eq_true_iff_eq. rewrite !keys_agree_spec. split.
  - intros Hab.
    assert (forall k, k ∈ keys a <-> k ∈ keys b) as Hset.
    { apply same_keys_iff; [done..|]. split; [done|]. intros k Hk. by apply Hab. }
    intros key Hkey. apply Hset in Hkey. split; [done|].
    rewrite <- Hsym by done. by apply Hab.
  - intros Hba.
    assert (forall k, k ∈ keys b <-> k ∈ keys a) as Hset.
    { apply same_keys_iff; [done..|]. split; [done|]. intros k Hk. by apply Hba. }
    intros key Hkey. split; [by apply Hset|].
    rewrite Hsym by done. apply Hba. by apply Hset.
Qed.

(** X1.  [deepEqual] walks the keys of its first argument only, yet on
    values that hold one value per key at every depth the order of the
    arguments does not matter. *)
Theorem deepEqual_symmetric (a b : value) :
  well_formed a -> well_formed b -> deepEqual a b = deepEqual b a.
Proof.
  revert b. induction a as [a IH] using own_props_ind. intros b Ha Hb.
  destruct (is_composite a) eqn:Hca; [destruct (is_composite b) eqn:Hcb|].
  - rewrite (deepEqual_composite a b), (deepEqual_composite b a);
      try done; try by apply well_formed_distinct_keys.
    rewrite (strict_eq_sym b a), (Nat.eqb_sym (length (keys b))).
    destruct (strict_eq a b); [done|]. simpl.
    destruct (Nat.eqb_spec (length (keys a)) (length (keys b))) as [Hlen|]; [|done].
    simpl. apply keys_agree_sym; try done; try by apply well_formed_distinct_keys.
    intros key Hkey. apply (IH key); [by apply get_own_props|..];
      by apply well_formed_get.
  - rewrite (deepEqual_not_composite a b), (deepEqual_not_composite b a) by auto.
    apply strict_eq_sym.
  - rewrite (deepEqual_not_composite a b), (deepEqual_not_composite b a) by auto.
    apply strict_eq_sym.
Qed.

(** Closes [well_formed v] for a concrete value [v]. *)
Ltac well_formed_value :=
  repeat first
    [ apply wf_obj; [apply (bool_decide_unpack _); vm_compute; exact I|]
    | apply wf_arr | apply Forall_cons_2 | apply Forall_nil_2
    | apply wf_undefined | apply wf_null | apply wf_bool | apply wf_num
    | apply wf_str ].

Lemma deepEqual_symmetric_witness :
  well_formed nested /\ well_formed nested_copy /\
  deepEqual nested nested_copy = deepEqual nested_copy nested.
Proof.
  assert (well_formed nested) as Ha by (unfold nested; well_formed_value).
  assert (well_formed nested_copy) as Hb by (unfold nested_copy; well_formed_value).
  split; [exact Ha|]. split; [exact Hb|].
  exact (deepEqual_symmetric nested nested_copy Ha Hb).
Defined.

(** X2.  A value that holds one value per key at every depth is
    [deepEqual] to every value of the same content, whichever objects the
    other one is made of: parsing the same JSON text again gives an equal
    value. *)
Theorem deepEqual_of_equal_content (a c : value) :
  well_formed a -> erase a = erase c -> deepEqual a c = true.
Proof. intros Hwf He. by apply deepEqual_erase. Qed.

Lemma deepEqual_of_equal_content_witness :
  well_formed nested /\
  erase nested = erase (VObj 7 [("a", VNum 1); ("b", VObj 8 [("c", VNum 2)])]) /\
  deepEqual nested (VObj 7 [("a", VNum 1); ("b", VObj 8 [("c", VNum 2)])]) = true.
Proof.
  assert (well_formed nested) as Ha by (unfold nested; well_formed_value).
  assert (erase nested = erase (VObj 7 [("a", VNum 1); ("b", VObj 8 [("c", VNum 2)])]))
    as He by reflexivity.
  split; [exact Ha|]. split; [exact He|].
  exact (deepEqual_of_equal_content _ _ Ha He).
Defined.

Lemma get_permutation a b key :
  distinct_keys a -> own_props a ≡ₚ own_props b -> key ∈ keys a ->
  get b key = get a key.
Proof.
  intros Hka Hperm Hkey. unfold get at 1.
  rewrite (assoc_NoDup key (own_props b) (get a key)); [done| |].
  - unfold distinct_keys, keys in Hka. by rewrite <- Hperm.
  - rewrite <- Hperm. by apply get_own_props.
Qed.

(** X3.  [deepEqual] sees a composite through its entries alone: two
    composites with the same entries in any order are equal, and so are an
    array and an object that holds the elements of the array under the
    indices as keys. *)
Theorem deepEqual_same_entries (a b : value) :
  is_composite a = true -> is_composite b = true -> distinct_keys a ->
  own_props a ≡ₚ own_props b ->
  deepEqual a b = true.
Proof.
  intros Ha Hb Hka Hperm. rewrite deepEqual_composite by done.
  apply orb_true_iff. right. apply andb_true_iff. split.
  - apply Nat.eqb_eq. unfold keys. rewrite !length_map. by apply Permutation_length.
  - apply keys_agree_spec. intros key Hkey. split.
    + unfold keys. rewrite <- Hperm. exact Hkey.
    + rewrite (get_permutation a b key) by done.
      by rewrite deepEqual_eq, strict_eq_refl.
Qed.

Lemma deepEqual_same_entries_witness :
  is_composite (VArr 1 [VNum 7; VStr "x"]) = true /\
  is_composite (VObj 2 [("1", VStr "x"); ("0", VNum 7)]) = true /\
  distinct_keys (VArr 1 [VNum 7; VStr "x"]) /\
  own_props (VArr 1 [VNum 7; VStr "x"])
    ≡ₚ own_props (VObj 2 [("1", VStr "x"); ("0", VNum 7)]) /\
  deepEqual (VArr 1 [VNum 7; VStr "x"]) (VObj 2 [("1", VStr "x"); ("0", VNum 7)]) = true.
Proof.
  assert (distinct_keys (VArr 1 [VNum 7; VStr "x"])) as Hka
    by apply distinct_keys_arr.
  assert (own_props (VArr 1 [VNum 7; VStr "x"])
            ≡ₚ own_props (VObj 2 [("1", VStr "x"); ("0", VNum 7)])) as Hperm
    by (vm_compute; apply perm_swap).
  split; [reflexivity|]. split; [reflexivity|]. split; [exact Hka|].
  split; [exact Hperm|].
  exact (deepEqual_same_entries (VArr 1 [VNum 7; VStr "x"])
           (VObj 2 [("1", VStr "x"); ("0", VNum 7)]) eq_refl eq_refl Hka Hperm).
Defined.

End DeepCompareLaws.

(* ===================================================================== *)
(** ** Further properties of the reconciliation *)
(* ===================================================================== *)

Module MergeLaws.
Import Js JsFacts DeepCompare DeepCompareFacts App AppFacts Merge.

Lemma refresh_same_id data p : same_id (refresh data p) p = true.
Proof.
  unfold refresh. destruct (List.find _ data) as [f|] eqn:Hfind;
    [|apply same_id_refl].
  destruct (isEqual p f); [apply same_id_refl|].
  by apply find_some in Hfind as [_ Hid].
Qed.

Lemma refresh_unknown data p : known_in data p = false -> refresh data p = p.
Proof. intros Hk. apply find_known_in in Hk. unfold refresh. by rewrite Hk. Qed.

Lemma refresh_cons_other f data p :
  same_id f p = false -> refresh (f :: data) p = refresh data p.
Proof. intros Hid. unfold refresh. simpl. by rewrite Hid. Qed.

Lemma known_in_refresh data other p :
  known_in other (refresh data p) = known_in other p.
Proof. apply known_in_congr, refresh_same_id. Qed.

Lemma known_in_insert l i p f g :
  l !! i = Some p -> same_id p f = true ->
  known_in (<[i := f]> l) g = known_in l g.
Proof.
  intros Hi Hp. apply known_in_same_ids; [|apply same_id_refl].
  rewrite <- (list_insert_id l i p) at 1 by done.
  apply Forall2_insert; [|done].
  apply Forall2_same_length_lookup. split; [done|].
  intros j x y Hx Hy. rewrite Hx in Hy. injection Hy as ->. apply same_id_refl.
Qed.

(** With unique ids, the held record of an id is the one the lookup finds. *)
Lemma unique_ids_same_record l f i p q :
  unique_ids l = true -> first_with_id l f i p -> q ∈ l -> same_id f q = true ->
  q = p.
Proof.
  intros Hu (Hi & Hp & _) Hq Hfq. apply list_elem_of_lookup in Hq as [j Hj].
  assert (j = i) as ->; [|congruence].
  apply (unique_ids_lookup l j i q p); try done.
  rewrite same_id_sym. by rewrite (same_id_congr p f q).
Qed.

Lemma filter_agree {A} (g h : A -> bool) (l : list A) :
  (forall x, x ∈ l -> g x = h x) -> List.filter g l = List.filter h l.
Proof.
  intros Hgh. apply filter_ext_in. intros x Hx. by apply Hgh, list_elem_of_In.
Qed.

Lemma map_agree {A B} (g h : A -> B) (l : list A) :
  (forall x, x ∈ l -> g x = h x) -> map g l = map h l.
Proof.
  intros Hgh. apply map_ext_in. intros x Hx. by apply Hgh, list_elem_of_In.
Qed.

Lemma filter_map {A B} (keep : B -> bool) (h : A -> B) (l : list A) :
  List.filter keep (map h l) = map h (List.filter (fun x => keep (h x)) l).
Proof.
  induction l as [|x rest IH]; simpl; [done|].
  destruct (keep (h x)); simpl; by rewrite IH.
Qed.

(** The snapshot the first loop builds, with unique ids on both sides:
    every held record refreshed in its slot, then the fetched records of
    new ids. *)
Lemma first_loop_merged data l ui :
  unique_ids l = true -> unique_ids data = true -> coherent (l ++ data) ->
  fst (fold_left onServerPokemon data (l, ui)) =
  map (refresh data) l ++ List.filter (fun f => negb (known_in l f)) data.
Proof.
  revert l ui. induction data as [|f rest IH]; intros l ui Hl Hd Hco.
  - simpl. rewrite app_nil_r. symmetry. rewrite <- (map_id l) at 2.
    by apply map_agree.
  - pose proof (coherent_app_l _ _ Hco) as Hcol.
    pose proof Hd as Hd'. simpl in Hd'. apply andb_true_iff in Hd' as [Hf Hrest].
    apply negb_true_iff in Hf.
    rewrite first_loop_cons,
      IH by (done || by apply unique_ids_step || by apply coherent_step).
    destruct (step_cases l ui f Hcol)
      as [i p Hfirst Hne | p Hfind Heq | Hnone]; cbn [fst List.filter].
    + pose proof Hfirst as (Hi & Hp & _).
      assert (known_in l f = true) as ->
        by (apply known_in_spec; exists p; split;
            [by eapply list_elem_of_lookup_2 | done]).
      cbn [negb]. f_equal.
      * rewrite list_fmap_insert, (refresh_unknown rest f) by done.
        apply list_eq. intros j. destruct (decide (j = i)) as [-> | Hji].
        -- rewrite list_lookup_insert_eq by (rewrite length_map; by eapply lookup_lt_Some).
           rewrite list_lookup_fmap, Hi. cbn [fmap option_fmap option_map]. f_equal.
           unfold refresh. cbn [List.find]. by rewrite (same_id_sym f p), Hp, Hne.
        -- rewrite list_lookup_insert_ne by done. rewrite !list_lookup_fmap.
           destruct (l !! j) as [q|] eqn:Hq; [|done].
           cbn [fmap option_fmap option_map]. f_equal.
           symmetry. apply refresh_cons_other.
           destruct (same_id f q) eqn:Hfq; [|done].
           assert (q = p) as ->.
           { apply (unique_ids_same_record l f i p q Hl Hfirst); [|done].
             by eapply list_elem_of_lookup_2. }
           exfalso. apply Hji.
           apply (unique_ids_lookup l j i p p Hl Hq Hi), same_id_refl.
      * apply filter_agree. intros g _. by rewrite (known_in_insert l i p f g).
    + pose proof Hfind as Hfirst. apply find_first_with_id in Hfirst as [i Hfirst].
      pose proof Hfirst as (Hi & Hp & _).
      assert (known_in l f = true) as ->
        by (apply known_in_spec; exists p; split;
            [by eapply list_elem_of_lookup_2 | done]).
      cbn [negb]. f_equal. apply map_agree. intros q Hq.
      destruct (same_id f q) eqn:Hfq; [|symmetry; by apply refresh_cons_other].
      assert (q = p) as ->
        by by apply (unique_ids_same_record l f i p q Hl Hfirst).
      rewrite refresh_unknown by by rewrite (known_in_congr rest p f).
      unfold refresh. cbn [List.find]. by rewrite Hfq, Heq.
    + apply find_known_in in Hnone. rewrite Hnone. cbn [negb].
      rewrite map_app. cbn [map]. rewrite (refresh_unknown rest f) by done.
      rewrite <- app_assoc. cbn [app]. f_equal.
      * apply map_agree. intros q Hq. symmetry. apply refresh_cons_other.
        destruct (same_id f q) eqn:Hfq; [|done].
        assert (known_in l f = true); [|congruence].
        apply known_in_spec. exists q. by rewrite same_id_sym.
      * f_equal. apply filter_agree. intros g Hg.
        rewrite known_in_app. unfold known_in at 2. cbn [existsb].
        by rewrite (unique_ids_cons_inv f rest g), !orb_false_r.
Qed.

Lemma operations_issued held data :
  operations (issued held data) = issued held data.
Proof.
  unfold operations. apply filter_all. intros e He. unfold issued in He.
  apply elem_of_app in He as [He | He].
  - apply list_elem_of_In, in_flat_map in He as (f & _ & He). unfold event_for in He.
    destruct (List.find _ held) as [p|]; [destruct (isEqual p f)|];
      simpl in He; intuition (subst; done).
  - apply list_elem_of_fmap in He as (p & -> & _). done.
Qed.

(** X4.  With at most one record per id in the held and in the fetched
    snapshot, a cycle is the merge written out in [merged] and [issued]:
    the held records the server still has stay in their order, each
    replaced by the fetched record of its id when the two differ; the
    fetched records of new ids follow in the order of the fetch; the
    operations are one [Create] or [Update] per fetched record that is new
    or differs, then one [Delete] per held record the server dropped.
    ([coherent] says that a reference denotes one object.) *)
Theorem reconcile_is_merge (P F : list record) :
  unique_ids P = true -> unique_ids F = true -> coherent (P ++ F) ->
  fst (reconcile P F) = merged P F /\
  operations (snd (reconcile P F)) = issued P F.
Proof.
  intros HP HF Hco. destruct P as [|p0 P].
  - rewrite reconcile_bootstrap. cbn [fst snd]. unfold merged, issued. split.
    + cbn. symmetry. by apply filter_all.
    + cbn [operations List.filter is_operation map app]. rewrite app_nil_r.
      fold (operations (map Create F)).
      assert (operations (map Create F) = map Create F) as ->
        by (unfold operations; apply filter_all; intros e He;
            by apply list_elem_of_fmap in He as (? & -> & _)).
      clear. induction F as [|f F IH]; cbn; congruence.
  - rewrite reconcile_steady by done. cbn zeta. cbn [fst snd].
    rewrite first_loop_event_for, (first_loop_merged F (p0 :: P) []) by done.
    cbn [app]. rewrite !List.filter_app, !filter_map.
    set (news := List.filter (fun f => negb (known_in (p0 :: P) f)) F).
    assert (forall f, f ∈ news -> known_in F f = true) as Hnews.
    { intros f Hf. apply list_elem_of_In, filter_In in Hf as [Hf _].
      apply known_in_spec. exists f. split; [by apply list_elem_of_In|].
      apply same_id_refl. }
    rewrite (filter_all (known_in F) news) by done.
    rewrite (filter_none (fun p => negb (known_in F p)) news), app_nil_r
      by (intros f Hf; by rewrite Hnews).
    rewrite (filter_agree _ (known_in F) (p0 :: P))
      by (intros; apply known_in_refresh).
    rewrite (filter_agree (fun x => negb (known_in F (refresh F x)))
               (fun p => negb (known_in F p)) (p0 :: P))
      by (intros; by rewrite known_in_refresh).
    split; [done|].
    assert (map (refresh F) (List.filter (fun p => negb (known_in F p)) (p0 :: P))
            = List.filter (fun p => negb (known_in F p)) (p0 :: P)) as ->.
    { rewrite <- (map_id (List.filter _ (p0 :: P))) at 2. apply map_agree.
      intros p Hp. apply refresh_unknown.
      apply list_elem_of_In, filter_In in Hp as [_ Hp]. by apply negb_true_iff. }
    apply (operations_issued (p0 :: P) F).
Qed.

Lemma reconcile_is_merge_witness :
  unique_ids [entity 1 1 10; entity 2 2 20] = true /\
  unique_ids [entity 3 3 30; entity 4 1 11] = true /\
  coherent ([entity 1 1 10; entity 2 2 20] ++ [entity 3 3 30; entity 4 1 11]) /\
  fst (reconcile [entity 1 1 10; entity 2 2 20] [entity 3 3 30; entity 4 1 11])
    = merged [entity 1 1 10; entity 2 2 20] [entity 3 3 30; entity 4 1 11] /\
  operations
    (snd (reconcile [entity 1 1 10; entity 2 2 20] [entity 3 3 30; entity 4 1 11]))
    = issued [entity 1 1 10; entity 2 2 20] [entity 3 3 30; entity 4 1 11].
Proof.
  assert (unique_ids [entity 1 1 10; entity 2 2 20] = true) as HP by reflexivity.
  assert (unique_ids [entity 3 3 30; entity 4 1 11] = true) as HF by reflexivity.
  assert (coherent ([entity 1 1 10; entity 2 2 20] ++ [entity 3 3 30; entity 4 1 11]))
    as Hco by distinct_refs.
  split; [exact HP|]. split; [exact HF|]. split; [exact Hco|].
  exact (reconcile_is_merge _ _ HP HF Hco).
Defined.

(** *** The ids held after a cycle *)

Lemma known_in_cons q l g : known_in (q :: l) g = same_id q g || known_in l g.
Proof. reflexivity. Qed.

Lemma step_known_in l ui f g :
  coherent l ->
  known_in (fst (onServerPokemon (l, ui) f)) g = known_in l g || same_id f g.
Proof.
  intros Hco.
  assert (forall p, p ∈ l -> same_id p f = true ->
            known_in l g || same_id f g = known_in l g) as Habsorb.
  { intros p Hp Hid. destruct (same_id f g) eqn:Hfg; [|apply orb_false_r].
    rewrite orb_true_r. symmetry. apply known_in_spec. exists p. split; [done|].
    eauto using same_id_trans. }
  destruct (step_cases l ui f Hco)
    as [i p (Hi & Hp & _) _ | p Hfind _ | _]; cbn [fst].
  - rewrite (known_in_insert l i p f g) by done. symmetry.
    apply (Habsorb p); [by eapply list_elem_of_lookup_2 | done].
  - apply find_elem_of in Hfind as [Hin Hid]. symmetry. by apply (Habsorb p).
  - rewrite known_in_app. unfold known_in at 2. cbn [existsb].
    by rewrite orb_false_r.
Qed.

Lemma first_loop_known_in data l ui g :
  coherent (l ++ data) ->
  known_in (fst (fold_left onServerPokemon data (l, ui))) g
  = known_in l g || known_in data g.
Proof.
  revert l ui. induction data as [|f rest IH]; intros l ui Hco.
  - cbn. by rewrite orb_false_r.
  - rewrite first_loop_cons, IH by by apply coherent_step.
    rewrite step_known_in by by eapply coherent_app_l.
    by rewrite (known_in_cons f rest), orb_assoc.
Qed.

Lemma known_in_filter_known data l g :
  known_in (List.filter (known_in data) l) g = known_in l g && known_in data g.
Proof.
  induction l as [|q rest IH]; [done|]. cbn [List.filter].
  rewrite (known_in_cons q rest).
  destruct (known_in data q) eqn:Hq; [rewrite known_in_cons|]; rewrite IH;
    (destruct (same_id q g) eqn:Hqg; [|done]);
    rewrite (known_in_congr data q g Hqg) in Hq; rewrite Hq; cbn;
    by rewrite ?andb_false_r.
Qed.

(** X5.  After a cycle the held snapshot answers a lookup by id exactly as
    the fetched snapshot does: every fetched id is held and no other id is.
    ([coherent] says that a reference denotes one object.) *)
Theorem held_ids_are_fetched_ids (P F : list record) (g : record) :
  coherent (P ++ F) ->
  known_in (fst (reconcile P F)) g = known_in F g.
Proof.
  intros Hco. destruct P as [|p0 P]; [done|].
  rewrite reconcile_steady by done. cbn zeta. cbn [fst].
  rewrite known_in_filter_known, first_loop_known_in by done.
  by destruct (known_in (p0 :: P) g), (known_in F g).
Qed.

Lemma held_ids_are_fetched_ids_witness :
  coherent ([entity 1 1 10; entity 2 2 20] ++ [entity 3 3 30; entity 4 1 11]) /\
  known_in (fst (reconcile [entity 1 1 10; entity 2 2 20]
                           [entity 3 3 30; entity 4 1 11])) (entity 9 2 0)
    = known_in [entity 3 3 30; entity 4 1 11] (entity 9 2 0).
Proof.
  assert (coherent ([entity 1 1 10; entity 2 2 20] ++ [entity 3 3 30; entity 4 1 11]))
    as Hco by distinct_refs.
  split; [exact Hco|].
  exact (held_ids_are_fetched_ids _ _ (entity 9 2 0) Hco).
Defined.

(** X6.  Whatever the two snapshots hold, a cycle invents no record and
    keeps none that the server dropped: every record held afterwards is a
    held or a fetched record, and its id is among the fetched ids. *)
Theorem held_records_come_from_the_cycle (P F : list record) (p : record) :
  p ∈ fst (reconcile P F) -> p ∈ P ++ F /\ known_in F p = true.
Proof.
  destruct P as [|p0 P].
  - rewrite reconcile_bootstrap. cbn [fst app]. intros Hp. split; [done|].
    apply known_in_spec. exists p. split; [done | apply same_id_refl].
  - rewrite reconcile_steady by done. cbn zeta. cbn [fst]. intros Hp.
    apply list_elem_of_In, filter_In in Hp as [Hp Hk]. split; [|done].
    apply list_elem_of_In in Hp. by eapply first_loop_elem_of.
Qed.

Lemma held_records_come_from_the_cycle_witness :
  entity 4 1 11 ∈ fst (reconcile [entity 1 1 10; entity 2 2 20]
                                 [entity 3 3 30; entity 4 1 11]) /\
  entity 4 1 11 ∈ [entity 1 1 10; entity 2 2 20] ++ [entity 3 3 30; entity 4 1 11] /\
  known_in [entity 3 3 30; entity 4 1 11] (entity 4 1 11) = true.
Proof.
  assert (entity 4 1 11 ∈ fst (reconcile [entity 1 1 10; entity 2 2 20]
                                         [entity 3 3 30; entity 4 1 11])) as Hin
    by (vm_compute; left).
  split; [exact Hin|].
  exact (held_records_come_from_the_cycle _ _ _ Hin).
Defined.

(** X7.  An empty fetched snapshot empties a non-empty held snapshot with
    one [Delete] per held record, in order; the next fetch then starts over:
    it makes the fetched snapshot the held one and renders it whole. *)
Theorem empty_fetch_clears_and_restarts (p0 : record) (P F : list record) :
  reconcile (p0 :: P) [] = ([], map Delete (p0 :: P)) /\
  reconcile (fst (reconcile (p0 :: P) [])) F = (F, Clear :: map Create F).
Proof.
  assert (reconcile (p0 :: P) [] = ([], map Delete (p0 :: P))) as Hempty.
  { rewrite reconcile_steady by done. cbn zeta. cbn [fold_left fst snd app].
    by rewrite filter_none, filter_all. }
  split; [exact Hempty|]. rewrite Hempty. apply reconcile_bootstrap.
Qed.

End MergeLaws.

(* ===================================================================== *)
(** ** Properties of [changePower] *)
(* ===================================================================== *)

Module ChangePowerLaws.
Import Js JsFacts DeepCompare DeepCompareFacts App AppFacts ChangePower MergeLaws.

Lemma findIndex_first (l : list record) u i :
  findIndex (fun p => same_id p u) l = Some i <-> exists p, first_with_id l u i p.
Proof.
  unfold first_with_id. revert i. induction l as [|y rest IH]; intros i; simpl.
  - split; [discriminate|]. intros (p & Hi & _). by destruct i.
  - destruct (same_id y u) eqn:Hy.
    + split.
      * intros [= <-]. exists y. repeat split; auto. intros j q Hj. lia.
      * intros (p & Hi & Hp & Hfirst). destruct i as [|i]; [done|].
        rewrite (Hfirst 0 y) in Hy by (auto; lia). discriminate.
    + destruct i as [|i].
      * split; [by destruct (findIndex _ rest)|].
        intros (p & Hi & Hp & _). simpl in Hi. congruence.
      * split.
        -- destruct (findIndex _ rest) as [n|] eqn:Hn; [|discriminate].
           intros [= ->]. destruct (proj1 (IH i) eq_refl) as (p & Hi & Hp & Hfirst).
           exists p. repeat split; auto.
           intros [|j] q Hj Hq; simpl in Hq; [congruence|].
           apply (Hfirst j); [lia | done].
        -- intros (p & Hi & Hp & Hfirst).
           rewrite (proj2 (IH i)); [done|]. exists p. repeat split; auto.
           intros j q Hj Hq. apply (Hfirst (S j)); [lia | done].
Qed.

Lemma findIndex_none (l : list record) u :
  findIndex (fun p => same_id p u) l = None <-> known_in l u = false.
Proof.
  unfold known_in. induction l as [|y rest IH]; simpl; [done|].
  destruct (same_id y u); simpl; [split; discriminate|].
  rewrite <- IH. by destruct (findIndex _ rest).
Qed.

(** What [store_confirmed] does, by the first record of the id. *)
Lemma store_confirmed_known l u i p :
  first_with_id l u i p ->
  store_confirmed u l = if isEqual p u then l else <[i := u]> l.
Proof.
  intros Hfirst. unfold store_confirmed.
  rewrite (proj2 (findIndex_first l u i)) by eauto.
  destruct Hfirst as (-> & _). by destruct (isEqual p u).
Qed.

Lemma store_confirmed_unknown l u :
  known_in l u = false -> store_confirmed u l = l.
Proof.
  intros Hk. unfold store_confirmed. by rewrite (proj2 (findIndex_none l u)).
Qed.

Lemma known_first_with_id l u :
  known_in l u = true -> exists i p, first_with_id l u i p.
Proof.
  intros Hk. destruct (List.find (fun q => same_id q u) l) as [p|] eqn:Hfind.
  - apply find_first_with_id in Hfind as [i Hi]. by exists i, p.
  - apply find_known_in in Hfind. congruence.
Qed.

Lemma same_ids_refl l : Forall2 (fun p q => same_id p q = true) l l.
Proof. induction l; constructor; [apply same_id_refl | done]. Qed.

Lemma store_confirmed_same_ids l u :
  Forall2 (fun p q => same_id p q = true) l (store_confirmed u l).
Proof.
  destruct (known_in l u) eqn:Hk.
  - destruct (known_first_with_id l u Hk) as (i & p & Hfirst).
    rewrite (store_confirmed_known l u i p Hfirst).
    destruct (isEqual p u); [apply same_ids_refl|].
    destruct Hfirst as (Hi & Hp & _).
    rewrite <- (list_insert_id l i p) at 1 by done.
    apply Forall2_insert; [apply same_ids_refl | done].
  - rewrite store_confirmed_unknown by done. apply same_ids_refl.
Qed.

Lemma store_confirmed_first l u i p :
  first_with_id l u i p ->
  exists q, first_with_id (store_confirmed u l) u i q /\ isEqual q u = true.
Proof.
  intros Hfirst. rewrite (store_confirmed_known l u i p Hfirst).
  destruct (isEqual p u) eqn:Heq; [by exists p|].
  exists u. split; [|apply isEqual_refl].
  destruct Hfirst as (Hi & Hp & Hbefore). split; [|split].
  - apply list_lookup_insert_eq. by eapply lookup_lt_Some.
  - apply same_id_refl.
  - intros j q Hj Hq. rewrite list_lookup_insert_ne in Hq by lia.
    by apply (Hbefore j).
Qed.

Lemma changePower_unconfirmed answer b :
  confirmed answer = None ->
  app (changePower answer b) = app b /\
  exists text, alerts (changePower answer b) = alerts b ++ [text].
Proof.
  destruct answer as [|status body]; simpl; [intros _; by eauto|].
  destruct (ok status); simpl; [|destruct body; intros _; by eauto].
  destruct body as [|outcome]; simpl; [intros _; by eauto|].
  destruct (success outcome); [|intros _; by eauto].
  intros ->. by eauto.
Qed.

Lemma changePower_confirmed answer b u :
  confirmed answer = Some u ->
  changePower answer b =
  {| app := {| localPokemons := store_confirmed u (localPokemons (app b));
               page := page (app b) ++ [Update u];
               console := console (app b) |};
     update_errors := update_errors b;
     alerts := alerts b |}.
Proof.
  destruct answer as [|status [|outcome]]; simpl; try discriminate.
  destruct (ok status); simpl; [|discriminate].
  destruct (success outcome); [|discriminate]. by intros ->.
Qed.

(** X8.  Unless the server confirmed the change, [changePower] leaves the
    held snapshot, the page and the console of the polling as they were and
    tells the user with exactly one alert; when the server confirmed, it
    alerts nothing, logs nothing and repaints the confirmed pokemon. *)
Theorem changePower_speaks_up_or_repaints (answer : power_answer) (b : browser) :
  match confirmed answer with
  | None =>
      app (changePower answer b) = app b /\
      exists text, alerts (changePower answer b) = alerts b ++ [text]
  | Some u =>
      alerts (changePower answer b) = alerts b /\
      update_errors (changePower answer b) = update_errors b /\
      page (app (changePower answer b)) = page (app b) ++ [Update u]
  end.
Proof.
  destruct (confirmed answer) as [u|] eqn:Hc.
  - by rewrite (changePower_confirmed answer b u Hc).
  - by apply changePower_unconfirmed.
Qed.

(** X9.  Whatever the answer, [changePower] never adds, removes or moves a
    record and never changes the id held in a slot; so a snapshot with one
    record per id stays one, and a lookup by id succeeds afterwards exactly
    when it did before. *)
Theorem changePower_keeps_slots (answer : power_answer) (b : browser) :
  Forall2 (fun p q => same_id p q = true)
    (localPokemons (app b)) (localPokemons (app (changePower answer b))) /\
  unique_ids (localPokemons (app (changePower answer b)))
    = unique_ids (localPokemons (app b)) /\
  (forall g, known_in (localPokemons (app (changePower answer b))) g
             = known_in (localPokemons (app b)) g).
Proof.
  assert (Forall2 (fun p q => same_id p q = true)
            (localPokemons (app b)) (localPokemons (app (changePower answer b))))
    as Hsame.
  { destruct (confirmed answer) as [u|] eqn:Hc.
    - rewrite (changePower_confirmed answer b u Hc). apply store_confirmed_same_ids.
    - destruct (changePower_unconfirmed answer b Hc) as [-> _]. apply same_ids_refl. }
  split; [exact Hsame|]. split.
  - by apply unique_ids_same_ids.
  - intros g. apply known_in_same_ids; [done | apply same_id_refl].
Qed.

(** X10.  After a confirmed change, the record the lookup by the confirmed
    id finds in the held snapshot is [isEqual] to the confirmed pokemon: it
    took the place of the first record of that id, unless that one was
    equal already; a snapshot that does not hold the id is left as it is. *)
Theorem changePower_stores_confirmed (answer : power_answer) (b : browser) (u : record) :
  confirmed answer = Some u ->
  (known_in (localPokemons (app b)) u = false ->
     localPokemons (app (changePower answer b)) = localPokemons (app b)) /\
  (forall i p, first_with_id (localPokemons (app b)) u i p ->
     localPokemons (app (changePower answer b))
       = (if isEqual p u then localPokemons (app b)
          else <[i := u]> (localPokemons (app b))) /\
     exists q, first_with_id (localPokemons (app (changePower answer b))) u i q /\
               isEqual q u = true).
Proof.
  intros Hc.
  rewrite (changePower_confirmed answer b u Hc). cbn [app localPokemons]. split.
  - apply store_confirmed_unknown.
  - intros i p Hfirst. split.
    + by apply store_confirmed_known.
    + by apply (store_confirmed_first _ u i p).
Qed.

Lemma changePower_stores_confirmed_witness :
  confirmed (Answer 200 (Body {| success := true; pokemon := Some (entity 9 2 21);
                                 message := None |})) = Some (entity 9 2 21) /\
  exists q,
    first_with_id
      (localPokemons (app (changePower
         (Answer 200 (Body {| success := true; pokemon := Some (entity 9 2 21);
                              message := None |}))
         {| app := {| localPokemons := [entity 1 1 10; entity 2 2 20];
                      page := []; console := [] |};
            update_errors := []; alerts := [] |})))
      (entity 9 2 21) 1 q /\
    isEqual q (entity 9 2 21) = true.
Proof.
  split; [reflexivity|].
  refine (proj2 (proj2 (changePower_stores_confirmed
            (Answer 200 (Body {| success := true; pokemon := Some (entity 9 2 21);
                                 message := None |}))
            {| app := {| localPokemons := [entity 1 1 10; entity 2 2 20];
                         page := []; console := [] |};
               update_errors := []; alerts := [] |}
            (entity 9 2 21) eq_refl) 1 (entity 2 2 20) _)).
  split; [reflexivity|]. split; [reflexivity|].
  intros [|[|j]] q Hj Hq; [|lia..]. injection Hq as <-. reflexivity.
Defined.

End ChangePowerLaws.

(* ===================================================================== *)
(** ** Properties of the power route *)
(* ===================================================================== *)

Module ServerLaws.
Import Server ServerFacts.
Local Open Scope Z_scope.

Lemma id_is_change_power pokemonId change p :
  id_is pokemonId (change_power change p) = id_is pokemonId p.
Proof. by destruct pokemonId. Qed.

Lemma find_mutate_found pokemonId change pokemons :
  List.find (id_is pokemonId) (mutate_found pokemonId change pokemons)
  = option_map (change_power change) (List.find (id_is pokemonId) pokemons).
Proof.
  induction pokemons as [|p rest IH]; simpl; [done|].
  destruct (id_is pokemonId p) eqn:Hp; simpl.
  - by rewrite id_is_change_power, Hp.
  - by rewrite Hp.
Qed.

Lemma change_power_twice c1 c2 p :
  0 <= c1 -> 0 <= powerLevel p /\ powerLevel p + c1 <= 2 ^ 53 ->
  change_power c2 (change_power c1 p) = change_power (c1 + c2) p.
Proof.
  intros Hc1 [Hp Hroom]. unfold change_power. cbn.
  rewrite (js_add_exact (powerLevel p) c1) by lia.
  destruct (Z.ltb_spec (powerLevel p + c1) 0); [lia|].
  unfold js_add. by rewrite Z.add_assoc.
Qed.

Lemma change_power_none p : 0 <= powerLevel p <= 2 ^ 53 -> change_power 0 p = p.
Proof.
  intros Hp. destruct p as [i n im pl]. unfold change_power. cbn in *.
  rewrite js_add_exact, Z.add_0_r by lia. by destruct (Z.ltb_spec pl 0); [lia|].
Qed.

Lemma mutate_found_twice pokemonId c1 c2 pokemons :
  0 <= c1 ->
  Forall (fun p => 0 <= powerLevel p /\ powerLevel p + c1 <= 2 ^ 53) pokemons ->
  mutate_found pokemonId c2 (mutate_found pokemonId c1 pokemons)
  = mutate_found pokemonId (c1 + c2) pokemons.
Proof.
  intros Hc1. induction 1 as [|p rest Hp Hrest IH]; simpl; [done|].
  destruct (id_is pokemonId p) eqn:Hid; simpl.
  - by rewrite id_is_change_power, Hid, change_power_twice.
  - by rewrite Hid, IH.
Qed.

Lemma mutate_found_none pokemonId pokemons :
  Forall (fun p => 0 <= powerLevel p <= 2 ^ 53) pokemons ->
  mutate_found pokemonId 0 pokemons = pokemons.
Proof.
  induction 1 as [|p rest Hp Hrest IH]; simpl; [done|].
  destruct (id_is pokemonId p); [by rewrite change_power_none | by rewrite IH].
Qed.

Lemma mutate_found_fixed pokemonId change pokemons p :
  List.find (id_is pokemonId) pokemons = Some p ->
  change_power change p = p ->
  mutate_found pokemonId change pokemons = pokemons.
Proof.
  induction pokemons as [|y rest IH]; simpl; [done|].
  destruct (id_is pokemonId y).
  - intros [= ->] ->. done.
  - intros Hfind Hfix. by rewrite IH.
Qed.

Lemma mutate_found_unknown pokemonId change pokemons :
  List.find (id_is pokemonId) pokemons = None ->
  mutate_found pokemonId change pokemons = pokemons.
Proof.
  induction pokemons as [|y rest IH]; simpl; [done|].
  destruct (id_is pokemonId y); [discriminate|]. intros Hfind. by rewrite IH.
Qed.

Lemma post_power_store pokemons pokemonId change :
  fst (post_power pokemons pokemonId change) = mutate_found pokemonId change pokemons.
Proof.
  unfold post_power. destruct (List.find (id_is pokemonId) pokemons) eqn:Hfind; [done|].
  simpl. by rewrite mutate_found_unknown.
Qed.

(** X11.  The route never adds, removes or reorders an entity, never
    changes an id, a name or an image, and leaves every entity whose id is
    not the requested one as it is. *)
Theorem post_power_keeps_entities (pokemons : list pokemon) (pokemonId : option Z)
    (change : Z) :
  Forall2 (fun p q => id q = id p /\ name q = name p /\ image q = image p /\
                      (id_is pokemonId p = false -> q = p))
    pokemons (fst (post_power pokemons pokemonId change)).
Proof.
  rewrite post_power_store.
  induction pokemons as [|p rest IH]; simpl; [constructor|].
  destruct (id_is pokemonId p) eqn:Hid.
  - constructor.
    + repeat split; try reflexivity. intros Hnot. congruence.
    + clear IH. induction rest; constructor; auto.
  - constructor; [by repeat split | exact IH].
Qed.

(** X12.  Two requests for one id add up, as long as the first sum is
    neither clamped nor rounded: with power levels from 0 on, a first
    change [c1] that is not negative and no power level above [2^53 - c1],
    the store and the body of the second response are those of a single
    request for [c1 + c2] ([c2] and [c1 + c2] being at most [2^53] in
    magnitude, so that they are numbers a request can carry); undoing the
    change with the opposite one gives the store back. *)
Theorem post_power_changes_add_up (pokemons : list pokemon) (pokemonId : option Z)
    (c1 c2 : Z) :
  Forall (fun p => 0 <= powerLevel p /\ powerLevel p + c1 <= 2 ^ 53) pokemons ->
  0 <= c1 ->
  Z.abs c2 <= 2 ^ 53 ->
  Z.abs (c1 + c2) <= 2 ^ 53 ->
  post_power (fst (post_power pokemons pokemonId c1)) pokemonId c2
    = post_power pokemons pokemonId (c1 + c2) /\
  fst (post_power (fst (post_power pokemons pokemonId c1)) pokemonId (- c1)) = pokemons.
Proof.
  intros Hroom Hc1 _ _.
  assert (post_power (fst (post_power pokemons pokemonId c1)) pokemonId c2
          = post_power pokemons pokemonId (c1 + c2)) as Hsum.
  { rewrite post_power_store. unfold post_power.
    rewrite find_mutate_found, mutate_found_twice by done.
    destruct (List.find (id_is pokemonId) pokemons) as [p|] eqn:Hfind; simpl;
      [|by rewrite mutate_found_unknown].
    rewrite change_power_twice; [done..|].
    apply find_some in Hfind as [Hin _].
    rewrite Forall_forall in Hroom. by apply Hroom, list_elem_of_In. }
  split; [exact Hsum|].
  rewrite !post_power_store, mutate_found_twice, Z.add_opp_diag_r by done.
  apply mutate_found_none. eapply Forall_impl; [exact Hroom|].
  intros p [Hp Hle]. simpl. lia.
Qed.

Lemma post_power_changes_add_up_witness :
  Forall (fun p => 0 <= powerLevel p /\ powerLevel p + 1 <= 2 ^ 53) [bulbasaur; pikachu] /\
  0 <= 1 /\
  Z.abs (-5) <= 2 ^ 53 /\
  Z.abs (1 + -5) <= 2 ^ 53 /\
  post_power (fst (post_power [bulbasaur; pikachu] (Some 25) 1)) (Some 25) (-5)
    = post_power [bulbasaur; pikachu] (Some 25) (1 + -5) /\
  fst (post_power (fst (post_power [bulbasaur; pikachu] (Some 25) 1)) (Some 25) (- 1))
    = [bulbasaur; pikachu].
Proof.
  assert (Forall (fun p => 0 <= powerLevel p /\ powerLevel p + 1 <= 2 ^ 53)
            [bulbasaur; pikachu]) as Hroom.
  { repeat (apply Forall_cons_2; [simpl; lia|]). apply Forall_nil_2. }
  assert (0 <= 1) as Hc by lia.
  assert (Z.abs (-5) <= 2 ^ 53) as Hc2 by (simpl; lia).
  assert (Z.abs (1 + -5) <= 2 ^ 53) as Hsum by (simpl; lia).
  split; [exact Hroom|]. split; [exact Hc|]. split; [exact Hc2|].
  split; [exact Hsum|].
  exact (post_power_changes_add_up [bulbasaur; pikachu] (Some 25) 1 (-5)
           Hroom Hc Hc2 Hsum).
Defined.

(** X13.  A decrease asked for an entity at power level zero is answered
    with status 200 and [success: true] although nothing changed: the store
    is the same and the body carries the entity as it was.  So a decrease
    followed by the opposite increase does not give the store back. *)
Theorem decrease_at_zero_is_absorbed (pokemons : list pokemon) (pokemonId : option Z)
    (change : Z) (p : pokemon) :
  List.find (id_is pokemonId) pokemons = Some p ->
  powerLevel p = 0 ->
  change < 0 ->
  post_power pokemons pokemonId change
    = (pokemons, {| status := 200; json := Changed true p |}) /\
  fst (post_power (fst (post_power pokemons pokemonId change)) pokemonId (- change))
    <> pokemons.
Proof.
  intros Hfind Hzero Hchange.
  assert (change_power change p = p) as Hfix.
  { destruct p as [i n im pl]. unfold change_power. cbn in *. subst pl.
    pose proof (round_double_neg (0 + change)) as Hneg. unfold js_add.
    by destruct (Z.ltb_spec (round_double (0 + change)) 0); [|lia]. }
  assert (post_power pokemons pokemonId change
          = (pokemons, {| status := 200; json := Changed true p |})) as Hsame.
  { unfold post_power. rewrite Hfind, Hfix.
    by rewrite (mutate_found_fixed pokemonId change pokemons p). }
  split; [exact Hsame|].
  rewrite Hsame. cbn [fst]. rewrite post_power_store. intros Hback.
  assert (List.find (id_is pokemonId) (mutate_found pokemonId (- change) pokemons)
          = Some p) as Hfound by (by rewrite Hback).
  rewrite find_mutate_found, Hfind in Hfound. simpl in Hfound.
  injection Hfound as Hp. apply (f_equal powerLevel) in Hp.
  unfold change_power in Hp. cbn in Hp. rewrite Hzero in Hp. unfold js_add in Hp.
  pose proof (round_double_pos (0 + - change)) as Hpos.
  destruct (Z.ltb_spec (round_double (0 + - change)) 0); lia.
Qed.

Lemma decrease_at_zero_is_absorbed_witness :
  List.find (id_is (Some 7))
    [bulbasaur; {| id := 7; name := "squirtle"; image := "7.png"; powerLevel := 0 |}]
    = Some {| id := 7; name := "squirtle"; image := "7.png"; powerLevel := 0 |} /\
  powerLevel {| id := 7; name := "squirtle"; image := "7.png"; powerLevel := 0 |} = 0 /\
  -1 < 0 /\
  post_power
    [bulbasaur; {| id := 7; name := "squirtle"; image := "7.png"; powerLevel := 0 |}]
    (Some 7) (-1)
    = ([bulbasaur; {| id := 7; name := "squirtle"; image := "7.png"; powerLevel := 0 |}],
       {| status := 200;
          json := Changed true
                    {| id := 7; name := "squirtle"; image := "7.png"; powerLevel := 0 |} |}).
Proof.
  assert (-1 < 0) as Hc by lia.
  split; [reflexivity|]. split; [reflexivity|]. split; [exact Hc|].
  exact (proj1 (decrease_at_zero_is_absorbed
    [bulbasaur; {| id := 7; name := "squirtle"; image := "7.png"; powerLevel := 0 |}]
    (Some 7) (-1)
    {| id := 7; name := "squirtle"; image := "7.png"; powerLevel := 0 |}
    eq_refl eq_refl Hc)).
Defined.

End ServerLaws.

(* ===================================================================== *)
(** ** [changePower] against the power route *)
(* ===================================================================== *)

Module WireLaws.
Import Js JsFacts DeepCompare App AppFacts Server ChangePower Wire ChangePowerLaws.

(** X14.  When the store has no entity of the requested id, the 404 of the
    route makes [changePower] throw before it reads the body: the user sees
    the fixed failure text, the error logged is the server error with
    status 404, the message the server wrote is never shown, and neither
    the store nor the client's snapshot and page change. *)
Theorem unknown_id_reports_failure (r : ref) (pokemons : list Server.pokemon)
    (pokemonId : option Z) (change : Z) (b : browser) :
  List.find (id_is pokemonId) pokemons = None ->
  fst (post_power pokemons pokemonId change) = pokemons /\
  changePower (deliver r (snd (post_power pokemons pokemonId change))) b
    = {| app := app b;
         update_errors := update_errors b ++ [UpdateServerError 404];
         alerts := alerts b ++ [failure_text] |}.
Proof.
  intros Hfind. unfold post_power. rewrite Hfind. split; reflexivity.
Qed.

Lemma unknown_id_reports_failure_witness :
  List.find (id_is None) [bulbasaur; pikachu] = None /\
  changePower (deliver 9 (snd (post_power [bulbasaur; pikachu] None 1)))
    {| app := {| localPokemons := [to_record 1 bulbasaur; to_record 2 pikachu];
                 page := []; console := [] |};
       update_errors := []; alerts := [] |}
  = {| app := {| localPokemons := [to_record 1 bulbasaur; to_record 2 pikachu];
                 page := []; console := [] |};
       update_errors := [UpdateServerError 404];
       alerts := [failure_text] |}.
Proof.
  split; [reflexivity|].
  exact (proj2 (unknown_id_reports_failure 9 [bulbasaur; pikachu] None 1
    {| app := {| localPokemons := [to_record 1 bulbasaur; to_record 2 pikachu];
                 page := []; console := [] |};
       update_errors := []; alerts := [] |} eq_refl)).
Defined.

(** X15.  When the store has an entity of the requested id, the click goes
    through end to end: the page is repainted with the entity the server
    changed, nothing is alerted or logged, and where the client held a
    record of that id the lookup by id now finds one that [isEqual] holds
    of with the server's entity.  This is for a sum of the old power level
    and the change that is at most [2^53] in magnitude; the power level
    painted is that sum clamped at 0. *)
Theorem known_id_repaints_with_the_server_entity (r : ref) (pokemons : list Server.pokemon)
    (pokemonId : option Z) (change : Z) (p : Server.pokemon) (b : browser) :
  List.find (id_is pokemonId) pokemons = Some p ->
  (Z.abs (powerLevel p + change) <= 2 ^ 53)%Z ->
  let u := to_record r (change_power change p) in
  let b' := changePower (deliver r (snd (post_power pokemons pokemonId change))) b in
  get (to_value u) "id" = VNum (id p) /\
  get (to_value u) "powerLevel" = VNum (Z.max 0 (powerLevel p + change)) /\
  page (app b') = page (app b) ++ [Update u] /\
  alerts b' = alerts b /\
  update_errors b' = update_errors b /\
  (forall i q, first_with_id (localPokemons (app b)) u i q ->
     exists q', first_with_id (localPokemons (app b')) u i q' /\ isEqual q' u = true).
Proof.
  intros Hfind Hsum u b'.
  assert (b' = {| app := {| localPokemons := store_confirmed u (localPokemons (app b));
                            page := page (app b) ++ [Update u];
                            console := console (app b) |};
                  update_errors := update_errors b;
                  alerts := alerts b |}) as ->.
  { subst b'. unfold post_power. rewrite Hfind. reflexivity. }
  cbn [app page alerts update_errors localPokemons].
  split; [reflexivity|]. split.
  - rewrite <- (ServerFacts.change_power_exact change p Hsum). reflexivity.
  - repeat split; try reflexivity. intros i q. apply store_confirmed_first.
Qed.

Lemma known_id_repaints_with_the_server_entity_witness :
  List.find (id_is (Some 25%Z)) [bulbasaur; pikachu] = Some pikachu /\
  (Z.abs (powerLevel pikachu + -5) <= 2 ^ 53)%Z /\
  get (to_value (to_record 9 (change_power (-5) pikachu))) "powerLevel"
    = VNum (Z.max 0 (powerLevel pikachu + -5)) /\
  page (app (changePower
    (deliver 9 (snd (post_power [bulbasaur; pikachu] (Some 25%Z) (-5))))
    {| app := {| localPokemons := [to_record 1 bulbasaur; to_record 2 pikachu];
                 page := []; console := [] |};
       update_errors := []; alerts := [] |}))
  = [] ++ [Update (to_record 9 (change_power (-5) pikachu))].
Proof.
  assert (Z.abs (powerLevel pikachu + -5) <= 2 ^ 53)%Z as Hsum by (simpl; lia).
  split; [reflexivity|]. split; [exact Hsum|].
  destruct (known_id_repaints_with_the_server_entity
    9 [bulbasaur; pikachu] (Some 25%Z) (-5) pikachu
    {| app := {| localPokemons := [to_record 1 bulbasaur; to_record 2 pikachu];
                 page := []; console := [] |};
       update_errors := []; alerts := [] |} eq_refl Hsum)
    as (_ & Hlevel & Hpage & _).
  split; [exact Hlevel | exact Hpage].
Defined.

End WireLaws.

(* ===================================================================== *)
(** ** [deepEqual] on values that share no object *)
(* ===================================================================== *)

Module DeepCompareChain.
Import Js JsFacts DeepCompare DeepCompareFacts DeepCompareLaws.

Lemma disjoint_refs_apart a b :
  Forall (fun r => r ∉ refs b) (refs a) -> apart a b.
Proof. intros Hall r Hr. rewrite Forall_forall in Hall. by apply Hall. Qed.

Lemma apart_not_identical a b :
  is_composite a = true -> apart a b -> strict_eq a b = false.
Proof.
  intros Ha Hab. destruct (strict_eq a b) eqn:Heq; [|done].
  destruct (refs_head_composite a Ha) as (r & Hr & Hsame).
  by apply Hsame, Hab in Heq.
Qed.

Lemma deepEqual_composite_r a b :
  is_composite a = true -> deepEqual a b = true -> is_composite b = true.
Proof.
  intros Ha Heq. destruct (is_composite b) eqn:Hb; [done|].
  rewrite deepEqual_not_composite in Heq by auto.
  apply strict_eq_prim in Heq; [|auto]. congruence.
Qed.

(** X16.  On values that hold one value per key at every depth and share
    no object, [deepEqual] is transitive: with X1 and reflexivity it is an
    equivalence there. *)
Theorem deepEqual_transitive (a b c : value) :
  well_formed a -> well_formed b -> well_formed c ->
  apart a b -> apart b c ->
  deepEqual a b = true -> deepEqual b c = true -> deepEqual a c = true.
Proof.
  revert b c. induction a as [a IH] using own_props_ind.
  intros b c Ha Hb Hc Hab Hbc E1 E2.
  destruct (is_composite a) eqn:Hca.
  - assert (is_composite b = true) as Hcb by by apply (deepEqual_composite_r a).
    assert (is_composite c = true) as Hcc by by apply (deepEqual_composite_r b).
    rewrite deepEqual_composite in E1, E2 |- *;
      try done; try by apply well_formed_distinct_keys.
    rewrite (apart_not_identical a b) in E1 by done.
    rewrite (apart_not_identical b c) in E2 by done.
    simpl in E1, E2.
    apply andb_true_iff in E1 as [L1 K1]. apply andb_true_iff in E2 as [L2 K2].
    apply Nat.eqb_eq in L1, L2.
    apply orb_true_iff. right. apply andb_true_iff. split.
    + apply Nat.eqb_eq. congruence.
    + apply keys_agree_spec. intros key Hk.
      destruct (proj1 (keys_agree_spec a b) K1 key Hk) as [Hkb E1k].
      destruct (proj1 (keys_agree_spec b c) K2 key Hkb) as [Hkc E2k].
      split; [done|].
      apply (IH key (get a key)) with (get b key);
        try done; try by apply well_formed_get.
      * by apply get_own_props.
      * eapply apart_get, apart_entry; [by apply get_own_props | done].
      * eapply apart_get, apart_entry; [by apply get_own_props | done].
  - rewrite deepEqual_not_composite in E1 by auto.
    apply strict_eq_prim in E1; [|auto]. by subst b.
Qed.

Lemma deepEqual_transitive_witness :
  well_formed nested /\ well_formed nested_copy /\
  well_formed (VObj 5 [("a", VNum 1); ("b", VObj 6 [("c", VNum 2)])]) /\
  apart nested nested_copy /\
  apart nested_copy (VObj 5 [("a", VNum 1); ("b", VObj 6 [("c", VNum 2)])]) /\
  deepEqual nested nested_copy = true /\
  deepEqual nested_copy (VObj 5 [("a", VNum 1); ("b", VObj 6 [("c", VNum 2)])]) = true /\
  deepEqual nested (VObj 5 [("a", VNum 1); ("b", VObj 6 [("c", VNum 2)])]) = true.
Proof.
  assert (well_formed nested) as Ha by (unfold nested; well_formed_value).
  assert (well_formed nested_copy) as Hb by (unfold nested_copy; well_formed_value).
  assert (well_formed (VObj 5 [("a", VNum 1); ("b", VObj 6 [("c", VNum 2)])])) as Hc
    by well_formed_value.
  assert (apart nested nested_copy) as Hab
    by (apply disjoint_refs_apart; apply (bool_decide_unpack _); vm_compute; exact I).
  assert (apart nested_copy (VObj 5 [("a", VNum 1); ("b", VObj 6 [("c", VNum 2)])]))
    as Hbc
    by (apply disjoint_refs_apart; apply (bool_decide_unpack _); vm_compute; exact I).
  assert (deepEqual nested nested_copy = true) as E1 by reflexivity.
  assert (deepEqual nested_copy
            (VObj 5 [("a", VNum 1); ("b", VObj 6 [("c", VNum 2)])]) = true) as E2
    by reflexivity.
  split; [exact Ha|]. split; [exact Hb|]. split; [exact Hc|].
  split; [exact Hab|]. split; [exact Hbc|]. split; [exact E1|]. split; [exact E2|].
  exact (deepEqual_transitive _ _ _ Ha Hb Hc Hab Hbc E1 E2).
Defined.

End DeepCompareChain.

(* ===================================================================== *)
(** ** A confirmed change and the next poll *)
(* ===================================================================== *)

Module ClickThenPoll.
Import Js JsFacts DeepCompare DeepCompareFacts App AppFacts ChangePower.
Import ChangePowerLaws DeepCompareChain.

Lemma first_with_id_same_id l f f' i p :
  id_of f' = id_of f -> first_with_id l f i p -> first_with_id l f' i p.
Proof. unfold first_with_id, same_id. by intros ->. Qed.

(** X17.  A confirmed change is not painted a second time: when the next
    poll fetches a record with the content of the pokemon the server
    confirmed, the callback of the first loop finds the record
    [changePower] left under that id equal to it, issues nothing and leaves
    the snapshot as it is.  The held record shares no object with the
    confirmed and the fetched one, as records of different responses do. *)
Theorem confirmed_change_is_not_repainted (answer : power_answer) (b : browser)
    (u f : record) (ui : list ui_event) (i : nat) (p : record) :
  confirmed answer = Some u ->
  parsed_entity u ->
  equal_content u f ->
  first_with_id (localPokemons (app b)) u i p ->
  apart (to_value p) (to_value u) ->
  apart (to_value p) (to_value f) ->
  onServerPokemon (localPokemons (app (changePower answer b)), ui) f
    = (localPokemons (app (changePower answer b)), ui).
Proof.
  intros Hc Hparsed Hcopy Hfirst Hpu Hpf.
  rewrite (changePower_confirmed answer b u Hc). cbn [app localPokemons].
  rewrite (store_confirmed_known _ u i p Hfirst).
  pose proof (equal_content_id_of u f Hparsed Hcopy) as Hid.
  destruct (equal_content_matches u f Hparsed Hcopy) as [_ Huf].
  destruct (isEqual p u) eqn:Heq.
  - apply (step_keep _ ui f p).
    + apply find_first_with_id. exists i. by apply (first_with_id_same_id _ u).
    + unfold isEqual in *.
      by rewrite <- (deepEqual_apart (to_value p) (to_value u) (to_value f)).
  - apply (step_keep _ ui f u); [|exact Huf].
    apply find_first_with_id. exists i. apply (first_with_id_same_id _ u); [done|].
    destruct Hfirst as (Hi & Hp & Hbefore). split; [|split].
    + apply list_lookup_insert_eq. by eapply lookup_lt_Some.
    + apply same_id_refl.
    + intros j q Hj Hq. rewrite list_lookup_insert_ne in Hq by lia.
      by apply (Hbefore j).
Qed.

Lemma confirmed_change_is_not_repainted_witness :
  confirmed (Answer 200 (Body {| success := true; pokemon := Some (entity 9 2 21);
                                 message := None |})) = Some (entity 9 2 21) /\
  parsed_entity (entity 9 2 21) /\
  equal_content (entity 9 2 21) (entity 12 2 21) /\
  first_with_id [entity 1 1 10; entity 2 2 20] (entity 9 2 21) 1 (entity 2 2 20) /\
  apart (to_value (entity 2 2 20)) (to_value (entity 9 2 21)) /\
  apart (to_value (entity 2 2 20)) (to_value (entity 12 2 21)) /\
  onServerPokemon
    (localPokemons (app (changePower
       (Answer 200 (Body {| success := true; pokemon := Some (entity 9 2 21);
                            message := None |}))
       {| app := {| localPokemons := [entity 1 1 10; entity 2 2 20];
                    page := []; console := [] |};
          update_errors := []; alerts := [] |})), [])
    (entity 12 2 21)
  = (localPokemons (app (changePower
       (Answer 200 (Body {| success := true; pokemon := Some (entity 9 2 21);
                            message := None |}))
       {| app := {| localPokemons := [entity 1 1 10; entity 2 2 20];
                    page := []; console := [] |};
          update_errors := []; alerts := [] |})), []).
Proof.
  assert (parsed_entity (entity 9 2 21)) as Hparsed by parsed.
  assert (equal_content (entity 9 2 21) (entity 12 2 21)) as Hcopy by reflexivity.
  assert (first_with_id [entity 1 1 10; entity 2 2 20] (entity 9 2 21) 1 (entity 2 2 20))
    as Hfirst.
  { split; [reflexivity|]. split; [reflexivity|].
    intros [|[|j]] q Hj Hq; [|lia..]. injection Hq as <-. reflexivity. }
  assert (apart (to_value (entity 2 2 20)) (to_value (entity 9 2 21))) as Hpu
    by (apply disjoint_refs_apart; apply (bool_decide_unpack _); vm_compute; exact I).
  assert (apart (to_value (entity 2 2 20)) (to_value (entity 12 2 21))) as Hpf
    by (apply disjoint_refs_apart; apply (bool_decide_unpack _); vm_compute; exact I).
  split; [reflexivity|]. split; [exact Hparsed|]. split; [exact Hcopy|].
  split; [exact Hfirst|]. split; [exact Hpu|]. split; [exact Hpf|].
  exact (confirmed_change_is_not_repainted
    (Answer 200 (Body {| success := true; pokemon := Some (entity 9 2 21);
                         message := None |}))
    {| app := {| localPokemons := [entity 1 1 10; entity 2 2 20];
                 page := []; console := [] |};
       update_errors := []; alerts := [] |}
    (entity 9 2 21) (entity 12 2 21) [] 1 (entity 2 2 20)
    eq_refl Hparsed Hcopy Hfirst Hpu Hpf).
Defined.

End ClickThenPoll.
